(** * webhoster: cookie codec, CORS middleware and buffer encoder middleware

    A shallow embedding of [helpers/CookieObject.js], [middleware/cors.js]
    and [middleware/bufferencoder.js].

    JavaScript strings are modelled by [string]; one [ascii] stands for one
    UTF-16 code unit below 256.  A value that may be [undefined] is an
    [option] whose [None] is [undefined].  A call that raises a [TypeError]
    in JavaScript (a method called on [undefined]) returns [Throw]. *)

From Stdlib Require Import ZArith Ascii String List Bool Lia.
From stdpp Require Import base option strings list gmap pretty.

Local Open Scope string_scope.
Local Open Scope Z_scope.

(** ** Faults *)

Inductive JsError := TypeError.

Inductive result (A : Type) : Type :=
| Ok (a : A)
| Throw (e : JsError).
Arguments Ok {A} a.
Arguments Throw {A} e.

Definition rbind {A B} (r : result A) (k : A → result B) : result B :=
  match r with
  | Ok a => k a
  | Throw e => Throw e
  end.

Notation "'let!' x ':=' r 'in' k" := (rbind r (fun x => k))
  (at level 10, x pattern, r at level 100, k at level 200).

(** A string or [undefined]. *)
Abbreviation JsStr := (option string).

(** ** The string builtins the three files use *)

Module JS.

(** [`${v}`]: [undefined] prints as the word. *)
Definition template (v : JsStr) : string :=
  match v with
  | Some s => s
  | None => "undefined"
  end.

(** Truthiness of a string or [undefined]: only a non-empty string. *)
Definition truthy (v : JsStr) : bool :=
  match v with
  | Some (String _ _) => true
  | _ => false
  end.

(** White space of [String.prototype.trim] among the code units below 256:
    TAB, LF, VT, FF, CR, SP and NBSP. *)
Definition is_ws (c : ascii) : bool :=
  let n := N_of_ascii c in
  ((9 <=? n) && (n <=? 13) || (n =? 32) || (n =? 160))%N.

Fixpoint trimStart (s : string) : string :=
  match s with
  | String c s' => if is_ws c then trimStart s' else s
  | EmptyString => EmptyString
  end.

Fixpoint trimEnd (s : string) : string :=
  match s with
  | String c s' =>
      match trimEnd s' with
      | EmptyString => if is_ws c then EmptyString else String c EmptyString
      | r => String c r
      end
  | EmptyString => EmptyString
  end.

Definition trim (s : string) : string := trimEnd (trimStart s).

(** [toLowerCase] on the code units below 256: A-Z, and the Latin-1 capitals
    U+00C0..U+00DE without the multiplication sign U+00D7. *)
Definition lower_char (c : ascii) : ascii :=
  let n := N_of_ascii c in
  if ((65 <=? n) && (n <=? 90)
      || (192 <=? n) && (n <=? 222) && negb (n =? 215))%N
  then ascii_of_N (n + 32) else c.

Fixpoint toLowerCase (s : string) : string :=
  match s with
  | String c s' => String (lower_char c) (toLowerCase s')
  | EmptyString => EmptyString
  end.

(** [s.split(sep)] for a separator of one code unit: never empty, one more
    piece than there are separators. *)
Fixpoint split (sep : ascii) (s : string) : list string :=
  match s with
  | EmptyString => [EmptyString]
  | String c s' =>
      if Ascii.eqb c sep then EmptyString :: split sep s'
      else match split sep s' with
           | h :: t => String c h :: t
           | [] => [String c EmptyString]
           end
  end.

(** [l.join(sep)] on strings. *)
Fixpoint join (sep : string) (l : list string) : string :=
  match l with
  | [] => EmptyString
  | [s] => s
  | s :: t => s +:+ sep +:+ join sep t
  end.

(** [s.includes(c)] for one code unit. *)
Fixpoint includes (c : ascii) (s : string) : bool :=
  match s with
  | String d s' => Ascii.eqb d c || includes c s'
  | EmptyString => false
  end.

(** [s.indexOf(c)]: the first position, or -1. *)
Fixpoint indexOf (c : ascii) (s : string) : Z :=
  match s with
  | String d s' =>
      if Ascii.eqb d c then 0
      else let i := indexOf c s' in if i =? -1 then -1 else i + 1
  | EmptyString => -1
  end.

(** [s.lastIndexOf(c)]: the last position, or -1. *)
Fixpoint lastIndexOf (c : ascii) (s : string) : Z :=
  match s with
  | String d s' =>
      let i := lastIndexOf c s' in
      if i =? -1 then (if Ascii.eqb d c then 0 else -1) else i + 1
  | EmptyString => -1
  end.

Definition len (s : string) : Z := Z.of_nat (String.length s).

(** [s.substring(a, b)]: both ends clamped to [0, length], swapped when
    [a > b]. *)
Definition substring (a b : Z) (s : string) : string :=
  let a' := Z.max 0 (Z.min a (len s)) in
  let b' := Z.max 0 (Z.min b (len s)) in
  let lo := Z.min a' b' in
  let hi := Z.max a' b' in
  String.substring (Z.to_nat lo) (Z.to_nat (hi - lo)) s.

(** Numbers: the integers and NaN. *)
Inductive JsNumber :=
| NaN
| Num (z : Z).

(** [String(n)] of an integer below 10^21 in magnitude, or of NaN. *)
Definition numberToString (n : JsNumber) : string :=
  match n with
  | NaN => "NaN"
  | Num z => pretty z
  end.

Definition digit_of (c : ascii) : option Z :=
  let n := N_of_ascii c in
  if ((48 <=? n) && (n <=? 57))%N then Some (Z.of_N n - 48) else None.

(** The value of the longest prefix of decimal digits, read from the left
    on top of [acc]. *)
Fixpoint parse_digits (acc : Z) (s : string) : Z :=
  match s with
  | String c s' =>
      match digit_of c with
      | Some d => parse_digits (10 * acc + d) s'
      | None => acc
      end
  | EmptyString => acc
  end.

(** [parseInt(v, 10)]: white space is skipped, one sign is read, then the
    longest run of digits; NaN when there is no digit.  [undefined] is read
    as the word, which has no digit. *)
Definition parseInt (v : JsStr) : JsNumber :=
  let s := trimStart (template v) in
  let '(neg, rest) :=
    match s with
    | String c r =>
        if Ascii.eqb c "-" then (true, r)
        else if Ascii.eqb c "+" then (false, r)
        else (false, s)
    | EmptyString => (false, s)
    end in
  match rest with
  | String c _ =>
      match digit_of c with
      | Some _ =>
          Num (if neg then - parse_digits 0 rest else parse_digits 0 rest)
      | None => NaN
      end
  | EmptyString => NaN
  end.

End JS.

(** ** helpers/CookieObject.js *)

(** [Date] is a builtin of the runtime: its values, [toUTCString] and
    [new Date(v)] for a string or [undefined] are taken as an interface. *)
Class DateBuiltins := {
  Date : Type;
  toUTCString : Date → string;
  newDate : JsStr → Date;
}.

Module Cookie.
Import JS.

Section CookieObject.
Context `{DateBuiltins}.

(** The record [parse] fills and the constructor reads; a field that was
    never assigned is [undefined]. *)
Record CookieObjectOptions := {
  opt_name : JsStr;
  opt_value : JsStr;
  opt_expires : option Date;
  opt_maxAge : option JsNumber;
  opt_domain : JsStr;
  opt_path : JsStr;
  opt_secure : option bool;
  opt_httpOnly : option bool;
  opt_sameSite : JsStr;
}.

Record CookieObject := {
  name : JsStr;
  value : JsStr;
  expires : option Date;
  maxAge : option JsNumber;
  domain : JsStr;
  path : JsStr;
  secure : bool;
  httpOnly : bool;
  sameSite : JsStr;
}.

(** [const options = {}] *)
Definition empty_options : CookieObjectOptions :=
  {| opt_name := None; opt_value := None; opt_expires := None;
     opt_maxAge := None; opt_domain := None; opt_path := None;
     opt_secure := None; opt_httpOnly := None; opt_sameSite := None |}.

(** The constructor on an options record; [?? false] on the two flags. *)
Definition construct (options : CookieObjectOptions) : CookieObject :=
  {| name := opt_name options;
     value := opt_value options;
     expires := opt_expires options;
     maxAge := opt_maxAge options;
     domain := opt_domain options;
     path := opt_path options;
     secure := default false (opt_secure options);
     httpOnly := default false (opt_httpOnly options);
     sameSite := opt_sameSite options |}.

(** [options.field = v] *)
Definition set_opt_name (v : JsStr) (o : CookieObjectOptions)
    : CookieObjectOptions :=
  {| opt_name := v; opt_value := opt_value o; opt_expires := opt_expires o;
     opt_maxAge := opt_maxAge o; opt_domain := opt_domain o;
     opt_path := opt_path o; opt_secure := opt_secure o;
     opt_httpOnly := opt_httpOnly o; opt_sameSite := opt_sameSite o |}.

Definition set_opt_value (v : JsStr) (o : CookieObjectOptions)
    : CookieObjectOptions :=
  {| opt_name := opt_name o; opt_value := v; opt_expires := opt_expires o;
     opt_maxAge := opt_maxAge o; opt_domain := opt_domain o;
     opt_path := opt_path o; opt_secure := opt_secure o;
     opt_httpOnly := opt_httpOnly o; opt_sameSite := opt_sameSite o |}.

Definition set_opt_expires (v : option Date) (o : CookieObjectOptions)
    : CookieObjectOptions :=
  {| opt_name := opt_name o; opt_value := opt_value o; opt_expires := v;
     opt_maxAge := opt_maxAge o; opt_domain := opt_domain o;
     opt_path := opt_path o; opt_secure := opt_secure o;
     opt_httpOnly := opt_httpOnly o; opt_sameSite := opt_sameSite o |}.

Definition set_opt_maxAge (v : option JsNumber) (o : CookieObjectOptions)
    : CookieObjectOptions :=
  {| opt_name := opt_name o; opt_value := opt_value o;
     opt_expires := opt_expires o; opt_maxAge := v;
     opt_domain := opt_domain o; opt_path := opt_path o;
     opt_secure := opt_secure o; opt_httpOnly := opt_httpOnly o;
     opt_sameSite := opt_sameSite o |}.

Definition set_opt_domain (v : JsStr) (o : CookieObjectOptions)
    : CookieObjectOptions :=
  {| opt_name := opt_name o; opt_value := opt_value o;
     opt_expires := opt_expires o; opt_maxAge := opt_maxAge o;
     opt_domain := v; opt_path := opt_path o; opt_secure := opt_secure o;
     opt_httpOnly := opt_httpOnly o; opt_sameSite := opt_sameSite o |}.

Definition set_opt_path (v : JsStr) (o : CookieObjectOptions)
    : CookieObjectOptions :=
  {| opt_name := opt_name o; opt_value := opt_value o;
     opt_expires := opt_expires o; opt_maxAge := opt_maxAge o;
     opt_domain := opt_domain o; opt_path := v; opt_secure := opt_secure o;
     opt_httpOnly := opt_httpOnly o; opt_sameSite := opt_sameSite o |}.

Definition set_opt_secure (v : option bool) (o : CookieObjectOptions)
    : CookieObjectOptions :=
  {| opt_name := opt_name o; opt_value := opt_value o;
     opt_expires := opt_expires o; opt_maxAge := opt_maxAge o;
     opt_domain := opt_domain o; opt_path := opt_path o; opt_secure := v;
     opt_httpOnly := opt_httpOnly o; opt_sameSite := opt_sameSite o |}.

Definition set_opt_httpOnly (v : option bool) (o : CookieObjectOptions)
    : CookieObjectOptions :=
  {| opt_name := opt_name o; opt_value := opt_value o;
     opt_expires := opt_expires o; opt_maxAge := opt_maxAge o;
     opt_domain := opt_domain o; opt_path := opt_path o;
     opt_secure := opt_secure o; opt_httpOnly := v;
     opt_sameSite := opt_sameSite o |}.

Definition set_opt_sameSite (v : JsStr) (o : CookieObjectOptions)
    : CookieObjectOptions :=
  {| opt_name := opt_name o; opt_value := opt_value o;
     opt_expires := opt_expires o; opt_maxAge := opt_maxAge o;
     opt_domain := opt_domain o; opt_path := opt_path o;
     opt_secure := opt_secure o; opt_httpOnly := opt_httpOnly o;
     opt_sameSite := v |}.

(** The callback of [forEach] in [parse].  [attribute.split('=')] is mapped
    through [trim]; [key] and [value] are its elements 0 and 1, [undefined]
    when missing.  [key.toLowerCase()] raises when [key] is [undefined]. *)
Definition parse_attribute (options : CookieObjectOptions)
    (attribute : string) (index : nat) : result CookieObjectOptions :=
  let parts := map trim (split "=" attribute) in
  let key : JsStr := parts !! 0%nat in
  let value : JsStr := parts !! 1%nat in
  if (index =? 0)%nat then
    Ok (set_opt_value value (set_opt_name key options))
  else
    match key with
    | None => Throw TypeError
    | Some k =>
        let k := toLowerCase k in
        if String.eqb k "expires" then
          Ok (set_opt_expires (Some (newDate value)) options)
        else if String.eqb k "max-age" then
          Ok (set_opt_maxAge (Some (parseInt value)) options)
        else if String.eqb k "domain" then Ok (set_opt_domain value options)
        else if String.eqb k "path" then Ok (set_opt_path value options)
        else if String.eqb k "secure" then
          Ok (set_opt_secure (Some true) options)
        else if String.eqb k "httponly" then
          Ok (set_opt_httpOnly (Some true) options)
        else if String.eqb k "samesite" then
          Ok (set_opt_sameSite value options)
        else Ok options
    end.

(** [forEach] over the segments, from [index] on; a fault ends it. *)
Fixpoint forEach_attribute (options : CookieObjectOptions)
    (attributes : list string) (index : nat) : result CookieObjectOptions :=
  match attributes with
  | [] => Ok options
  | attribute :: rest =>
      let! options' := parse_attribute options attribute index in
      forEach_attribute options' rest (S index)
  end.

(** [CookieObject.parse(cookieString)] *)
Definition parse (cookieString : string) : result CookieObject :=
  let! options := forEach_attribute empty_options (split ";" cookieString) 0 in
  Ok (construct options).

(** [new CookieObject(options)]: a string is parsed, a record is copied. *)
Definition new_CookieObject (options : CookieObjectOptions + string)
    : result CookieObject :=
  match options with
  | inr cookieString => parse cookieString
  | inl o => Ok (construct o)
  end.

(** [toString()] *)
Definition toString (this : CookieObject) : string :=
  template (name this) +:+ "=" +:+ template (value this)
  +:+ match expires this with
      | Some d => ";Expires=" +:+ toUTCString d
      | None => EmptyString
      end
  +:+ match maxAge this with
      | Some n => ";Max-Age=" +:+ numberToString n
      | None => EmptyString
      end
  +:+ (if truthy (domain this) then ";Domain=" +:+ template (domain this) else EmptyString)
  +:+ (if truthy (path this) then ";Path=" +:+ template (path this) else EmptyString)
  +:+ (if secure this then ";Secure" else EmptyString)
  +:+ (if httpOnly this then ";HttpOnly" else EmptyString)
  +:+ (if truthy (sameSite this) then ";SameSite=" +:+ template (sameSite this)
       else EmptyString).

(** [toJSON()]: a plain record of the nine fields, which the constructor
    reads as an options record. *)
Definition toJSON (this : CookieObject) : CookieObjectOptions :=
  {| opt_name := name this; opt_value := value this;
     opt_expires := expires this; opt_maxAge := maxAge this;
     opt_domain := domain this; opt_path := path this;
     opt_secure := Some (secure this); opt_httpOnly := Some (httpOnly this);
     opt_sameSite := sameSite this |}.

End CookieObject.
End Cookie.

(** ** The request and response pair the middleware functions share *)

Inductive BufferEncoding := latin1 | utf16le | utf8 | base64 | hex.

(** A [Buffer]: one that came as bytes, or the one that
    [Buffer.from(text, encoding)] builds, whose bytes are the runtime's
    business and are not computed here. *)
Inductive Buffer :=
| Bytes (bytes : list Byte.byte)
| BufferFrom (text : string) (encoding : BufferEncoding).

(** The values a stream in object mode carries.  An object that is not a
    [Buffer] is given by what [JSON.stringify] makes of it: its JSON text,
    or nothing when serialisation raises or yields [undefined]. *)
Inductive Value :=
| VUndefined
| VBoolean (b : bool)
| VNumber (n : JS.JsNumber)
| VString (s : string)
| VBuffer (b : Buffer)
| VObject (json : option string).

(** Truthiness: objects, and a [Buffer] is one, are always truthy. *)
Definition Value_truthy (v : Value) : bool :=
  match v with
  | VUndefined => false
  | VBoolean b => b
  | VNumber (JS.Num z) => negb (z =? 0)
  | VNumber JS.NaN => false
  | VString s => JS.truthy (Some s)
  | VBuffer _ => true
  | VObject _ => true
  end.

(** What a writable has been asked to do, in call order: [write(chunk)],
    and [end()] or [end(chunk)]. *)
Inductive StreamCall :=
| CallWrite (chunk : Value)
| CallEnd (chunk : option Value).

Inductive MiddlewareFunctionResult := MwContinue | MwEnd.

Module Request.
Record t := {
  method : string;
  headers : gmap string string;
}.
End Request.

(** The response: the status (unset at first), the header mapping, whose
    entries may hold [undefined], the latch [headersSent], and the calls made
    so far on the front writable [res.stream]. *)
Module Response.
Record t := {
  status : option Z;
  headers : gmap string JsStr;
  headersSent : bool;
  stream : list StreamCall;
}.

(** [res.headers[k] = v] *)
Definition set_header (k : string) (v : JsStr) (res : t) : t :=
  {| status := status res;
     headers := <[k := v]> (headers res);
     headersSent := headersSent res;
     stream := stream res |}.

(** [res.headers[k]]: [undefined] when the key is missing. *)
Definition get_header (k : string) (res : t) : JsStr :=
  match headers res !! k with
  | Some v => v
  | None => None
  end.
End Response.

(** ** middleware/cors.js *)

Module CORS.
Import JS Response.

Abbreviation Response := Response.t.

(** An entry of [allowOrigin]: a string, or a [RegExp] given by its [test]
    (a pattern without the global or sticky flag, so [test] keeps no
    position between calls). *)
Inductive OriginEntry :=
| OriginString (origin : string)
| OriginRegExp (test : string → bool).

Record CORSMiddlewareOptions := {
  allowOrigin : option (list OriginEntry);
  allowCredentials : bool;
  allowMethods : option (list string);
  allowHeaders : option (list string);
  maxAge : option JsNumber;
  exposeHeaders : option (list string);
}.

(** [options = {}] *)
Definition default_options : CORSMiddlewareOptions :=
  {| allowOrigin := None; allowCredentials := false; allowMethods := None;
     allowHeaders := None; maxAge := None; exposeHeaders := None |}.

(** The callback of [options.allowOrigin.some]: the response after it, and
    what it returns.  [reqOrigin] is [req.headers.origin]. *)
Definition allowOrigin_callback (reqOrigin : string) (res : Response)
    (origin : OriginEntry) : Response * bool :=
  match origin with
  | OriginString o =>
      if String.eqb o "*" then
        (set_header "access-control-allow-origin" (Some "*") res, true)
      else if String.eqb (toLowerCase reqOrigin) (toLowerCase o) then
        (set_header "access-control-allow-origin" (Some reqOrigin) res, true)
      else (res, false)
  | OriginRegExp test =>
      if test reqOrigin then
        (set_header "access-control-allow-origin" (Some reqOrigin) res, true)
      else (res, false)
  end.

(** [Array.prototype.some]: the callback runs on the entries in order and
    the loop stops at the first one on which it returns [true]. *)
Fixpoint allowOrigin_some (reqOrigin : string) (res : Response)
    (origins : list OriginEntry) : Response :=
  match origins with
  | [] => res
  | origin :: rest =>
      let '(res', found) := allowOrigin_callback reqOrigin res origin in
      if found then res' else allowOrigin_some reqOrigin res' rest
  end.

Definition default_methods : list string :=
  ["GET"; "HEAD"; "POST"; "PUT"; "DELETE"; "CONNECT"; "TRACE"; "PATCH"].

(** Truthiness of [options.maxAge]: a number other than 0 and NaN. *)
Definition number_truthy (n : option JsNumber) : bool :=
  match n with
  | Some (Num z) => negb (z =? 0)
  | _ => false
  end.

Definition executeCORSMiddleware (req : Request.t) (res : Response)
    (options : CORSMiddlewareOptions) : Response * MiddlewareFunctionResult :=
  match Request.headers req !! "origin" with
  | None => (res, MwContinue)
  | Some reqOrigin =>
      let res :=
        match allowOrigin options with
        | None => set_header "access-control-allow-origin" (Some "*") res
        | Some origins => allowOrigin_some reqOrigin res origins
        end in
      let res :=
        if allowCredentials options
        then set_header "access-control-allow-credentials" (Some "true") res
        else res in
      if String.eqb (Request.method req) "OPTIONS" then
        let res :=
          match allowMethods options with
          | Some ms => set_header "access-control-allow-methods"
                         (Some (join "," ms)) res
          | None => set_header "access-control-allow-methods"
                      (Some (join "," default_methods)) res
          end in
        let res :=
          match allowHeaders options with
          | Some hs => set_header "access-control-allow-headers"
                         (Some (join "," hs)) res
          | None => set_header "access-control-allow-headers"
                      (Request.headers req !! "access-control-request-headers")
                      res
          end in
        let res :=
          if number_truthy (maxAge options)
          then set_header "access-control-max-age"
                 (numberToString <$> maxAge options) res
          else res in
        ({| status := Some 200;
            headers := headers res;
            headersSent := headersSent res;
            stream := stream res ++ [CallEnd (Some (VString "OK"))] |}, MwEnd)
      else
        let res :=
          match exposeHeaders options with
          | Some hs => set_header "access-control-expose-headers"
                         (Some (join "," hs)) res
          | None => res
          end in
        (res, MwContinue)
  end.

(** [createCORSMiddleware(options)] and [defaultCORSMiddleware] *)
Definition createCORSMiddleware (options : CORSMiddlewareOptions)
    (req : Request.t) (res : Response) :=
  executeCORSMiddleware req res options.

Definition defaultCORSMiddleware (req : Request.t) (res : Response) :=
  executeCORSMiddleware req res default_options.

(** The match rule of the allow-list as the specification words it: a [*]
    entry matches unconditionally, a string entry matches the Origin without
    regard to case, a pattern entry matches by its test. *)
Definition spec_entry_matches (reqOrigin : string) (e : OriginEntry) : bool :=
  match e with
  | OriginString o =>
      String.eqb o "*" || String.eqb (toLowerCase reqOrigin) (toLowerCase o)
  | OriginRegExp test => test reqOrigin
  end.

(** What a matching entry puts in the header, in the specification's words:
    [*] for a [*] entry, the request's Origin as it came otherwise. *)
Definition spec_entry_value (reqOrigin : string) (e : OriginEntry) : string :=
  match e with
  | OriginString o => if String.eqb o "*" then "*" else reqOrigin
  | OriginRegExp _ => reqOrigin
  end.

End CORS.

(** ** middleware/bufferencoder.js *)

Module BufferEncoder.
Import JS.

Record BufferEncoderMiddlewareOptions := {
  defaultCharset : JsStr;
  setCharset : bool;
  setJSON : bool;
}.

(** [options = {}] *)
Definition default_options : BufferEncoderMiddlewareOptions :=
  {| defaultCharset := None; setCharset := false; setJSON := false |}.

Definition charsetAsBufferEncoding (charset : string) : BufferEncoding :=
  if bool_decide (charset ∈ ["iso-8859-1"; "ascii"; "binary"; "latin1"])
  then latin1
  else if bool_decide (charset ∈ ["utf-16le"; "ucs-2"; "ucs2"; "utf16le"])
  then utf16le
  else if String.eqb charset "base64" then base64
  else if String.eqb charset "hex" then hex
  else utf8.

(** The closure of one call of [executeBufferEncoderMiddleware]: the shared
    response [res], the calls made so far on [destination], and the local
    variables.  [endCalled] is what [hasEndCalled(newWritable)] answers. *)
Record State := {
  res : Response.t;
  destination : list StreamCall;
  endCalled : bool;
  pendingChunks : list Value;
  charset : JsStr;
  encoding : option BufferEncoding;
  hasSetJSON : bool;
}.

Definition set_res (r : Response.t) (st : State) : State :=
  {| res := r; destination := destination st; endCalled := endCalled st;
     pendingChunks := pendingChunks st; charset := charset st;
     encoding := encoding st; hasSetJSON := hasSetJSON st |}.

Definition set_charset (c : JsStr) (st : State) : State :=
  {| res := res st; destination := destination st; endCalled := endCalled st;
     pendingChunks := pendingChunks st; charset := c;
     encoding := encoding st; hasSetJSON := hasSetJSON st |}.

Definition set_encoding (e : option BufferEncoding) (st : State) : State :=
  {| res := res st; destination := destination st; endCalled := endCalled st;
     pendingChunks := pendingChunks st; charset := charset st;
     encoding := e; hasSetJSON := hasSetJSON st |}.

Definition set_hasSetJSON (b : bool) (st : State) : State :=
  {| res := res st; destination := destination st; endCalled := endCalled st;
     pendingChunks := pendingChunks st; charset := charset st;
     encoding := encoding st; hasSetJSON := b |}.

Definition set_destination (d : list StreamCall) (st : State) : State :=
  {| res := res st; destination := d; endCalled := endCalled st;
     pendingChunks := pendingChunks st; charset := charset st;
     encoding := encoding st; hasSetJSON := hasSetJSON st |}.

Definition set_pendingChunks (p : list Value) (st : State) : State :=
  {| res := res st; destination := destination st; endCalled := endCalled st;
     pendingChunks := p; charset := charset st;
     encoding := encoding st; hasSetJSON := hasSetJSON st |}.

Definition set_endCalled (b : bool) (st : State) : State :=
  {| res := res st; destination := destination st; endCalled := b;
     pendingChunks := pendingChunks st; charset := charset st;
     encoding := encoding st; hasSetJSON := hasSetJSON st |}.

Definition dquote : ascii := ascii_of_N 34.

(** The callback of [contentType.split(';').some] in [parseCharset]: the
    state after it and what it returns.  [parameters[1]?.trim().toLowerCase()]
    is [undefined] when the directive has no [=]; the next line calls
    [indexOf] on it. *)
Definition charset_callback (st : State) (directive : string)
    : result (State * bool) :=
  let parameters := split "=" directive in
  match parameters !! 0%nat with
  | None => Throw TypeError
  | Some p0 =>
      if negb (String.eqb (toLowerCase (trim p0)) "charset") then Ok (st, false)
      else
        let st := set_charset
                    ((fun p1 => toLowerCase (trim p1)) <$> parameters !! 1%nat)
                    st in
        match charset st with
        | None => Throw TypeError
        | Some cs =>
            let firstQuote := indexOf dquote cs in
            let lastQuote := lastIndexOf dquote cs in
            if negb (firstQuote =? -1) && negb (lastQuote =? -1)
            then Ok (set_charset
                       (Some (substring (firstQuote + 1) lastQuote cs)) st,
                     true)
            else Ok (st, true)
        end
  end.

Fixpoint charset_some (st : State) (directives : list string) : result State :=
  match directives with
  | [] => Ok st
  | directive :: rest =>
      let! (st', found) := charset_callback st directive in
      if found then Ok st' else charset_some st' rest
  end.

(** [parseCharset()]: the state after it and the charset it returns. *)
Definition parseCharset (options : BufferEncoderMiddlewareOptions)
    (st : State) : result (State * string) :=
  if truthy (charset st) then Ok (st, template (charset st))
  else
    let contentType := Response.get_header "content-type" (res st) in
    let! st :=
      if truthy contentType
      then charset_some st (split ";" (template contentType))
      else Ok st in
    if negb (truthy (charset st)) then
      let cs := if truthy (defaultCharset options)
                then template (defaultCharset options) else "utf-8" in
      let st := set_charset (Some cs) st in
      let st :=
        if setCharset options && negb (Response.headersSent (res st))
        then set_res
               (Response.set_header "content-type"
                  (Some ((if truthy contentType then template contentType
                          else EmptyString) +:+ ";charset=" +:+ cs))
                  (res st)) st
        else st in
      Ok (st, cs)
    else Ok (st, template (charset st)).

(** The callback of [map] in [setJSONMediaType]. *)
Definition json_directive (directive : string) : string :=
  if includes "=" directive then directive else "application/json".

Definition setJSONMediaType (st : State) : State :=
  if hasSetJSON st then st
  else
    let contentType := Response.get_header "content-type" (res st) in
    let st :=
      set_res
        (Response.set_header "content-type"
           (Some (join ";"
                    (map json_directive
                       (split ";" (if truthy contentType
                                   then template contentType
                                   else EmptyString)))))
           (res st)) st in
    set_hasSetJSON true st.

Section Handlers.
Variable options : BufferEncoderMiddlewareOptions.

(** [if (!encoding) encoding = charsetAsBufferEncoding(parseCharset())]:
    the state after it and the encoding then in force. *)
Definition resolve_encoding (st : State) : result (State * BufferEncoding) :=
  match encoding st with
  | Some e => Ok (st, e)
  | None =>
      let! (st, cs) := parseCharset options st in
      let e := charsetAsBufferEncoding cs in
      Ok (set_encoding (Some e) st, e)
  end.

(** The first half of the ['data'] listener: [chunk] for the value [any].
    A value that is not a [Buffer], a string or an object leaves [chunk]
    unassigned.  [Buffer.from] raises on [undefined], which is what
    [JSON.stringify] hands it when the model has no JSON text. *)
Definition make_chunk (any : Value) (st : State) : result (State * Value) :=
  match any with
  | VBuffer b => Ok (st, VBuffer b)
  | VString s =>
      let! (st, e) := resolve_encoding st in
      Ok (st, VBuffer (BufferFrom s e))
  | VObject json =>
      let! (st, e) := resolve_encoding st in
      match json with
      | None => Throw TypeError
      | Some text =>
          let chunk := VBuffer (BufferFrom text e) in
          if setJSON options && negb (hasSetJSON st)
             && negb (Response.headersSent (res st))
          then Ok (setJSONMediaType st, chunk)
          else Ok (st, chunk)
      end
  | _ => Ok (st, VUndefined)
  end.

(** [newWritable.on('data', ...)] *)
Definition on_data (any : Value) (st : State) : result State :=
  let! (st, chunk) := make_chunk any st in
  if endCalled st
  then Ok (set_pendingChunks (pendingChunks st ++ [chunk]) st)
  else Ok (set_destination (destination st ++ [CallWrite chunk]) st).

(** [while (chunk = pendingChunks.shift()) destination.write(chunk)]: each
    [shift] removes the head; the loop ends on an empty queue or on a head
    that is falsy.  What is left of the queue and the calls made. *)
Fixpoint flush (pending : list Value) (dest : list StreamCall)
    : list Value * list StreamCall :=
  match pending with
  | [] => ([], dest)
  | chunk :: rest =>
      if Value_truthy chunk then flush rest (dest ++ [CallWrite chunk])
      else (rest, dest)
  end.

(** [newWritable.on('end', ...)] *)
Definition on_end (st : State) : State :=
  let '(pending, dest) := flush (pendingChunks st) (destination st) in
  set_destination (dest ++ [CallEnd None]) (set_pendingChunks pending st).

(** What happens to the front stream and around it after the middleware has
    returned: [end()] is called on it, it emits ['data'] or ['end'], or other
    code changes the shared response. *)
Inductive Event :=
| EndRequested
| Data (any : Value)
| End
| Other (f : Response.t → Response.t).

(** Modelled from the spec: [utils/writableObserver.js] is not among the
    sources.  [addEndObserver] records, at the time [end()] is called, that
    end was requested, and [hasEndCalled] reads that record; here the record
    is [endCalled]. *)
Definition step (ev : Event) (st : State) : result State :=
  match ev with
  | EndRequested => Ok (set_endCalled true st)
  | Data any => on_data any st
  | End => Ok (on_end st)
  | Other f => Ok (set_res (f (res st)) st)
  end.

Fixpoint run (evs : list Event) (st : State) : result State :=
  match evs with
  | [] => Ok st
  | ev :: rest => let! st := step ev st in run rest st
  end.

(** Modelled from the spec: [res.replaceStream] is not among the sources.
    It installs the new front stream and returns the one that was the front.
    [executeBufferEncoderMiddleware]: the response after it, the closure it
    leaves behind unless the method is HEAD, and what it returns. *)
Definition executeBufferEncoderMiddleware (req : Request.t) (res0 : Response.t)
    : Response.t * option State * MiddlewareFunctionResult :=
  if String.eqb (Request.method req) "HEAD" then (res0, None, MwContinue)
  else
    let res1 := {| Response.status := Response.status res0;
                   Response.headers := Response.headers res0;
                   Response.headersSent := Response.headersSent res0;
                   Response.stream := [] |} in
    (res1,
     Some {| res := res1; destination := Response.stream res0;
             endCalled := false; pendingChunks := [];
             charset := None; encoding := None; hasSetJSON := false |},
     MwContinue).

End Handlers.


End BufferEncoder.

(** ** A [Date] to run the cookie codec on

    Time values in milliseconds since the epoch, or Invalid Date, with the
    HTTP-date text of [toUTCString] for the years 0 to 9999.  [newDate] reads
    that text back and makes everything else Invalid Date; the runtime's
    parser accepts more. *)

Module UTCDate.

Inductive t :=
| Invalid
| At (ms : Z).

(** Year, month (1-12) and day of the month of a day count from the epoch. *)
Definition civil_from_days (z : Z) : Z * Z * Z :=
  let z := z + 719468 in
  let era := z / 146097 in
  let doe := z - era * 146097 in
  let yoe := (doe - doe / 1460 + doe / 36524 - doe / 146096) / 365 in
  let doy := doe - (365 * yoe + yoe / 4 - yoe / 100) in
  let mp := (5 * doy + 2) / 153 in
  let d := doy - (153 * mp + 2) / 5 + 1 in
  let m := if mp <? 10 then mp + 3 else mp - 9 in
  (yoe + era * 400 + (if m <=? 2 then 1 else 0), m, d).

Definition days_from_civil (y m d : Z) : Z :=
  let y := if m <=? 2 then y - 1 else y in
  let era := y / 400 in
  let yoe := y - era * 400 in
  let doy := (153 * (if 2 <? m then m - 3 else m + 9) + 2) / 5 + d - 1 in
  let doe := yoe * 365 + yoe / 4 - yoe / 100 + doy in
  era * 146097 + doe - 719468.

Definition day_names : list string :=
  ["Sun"; "Mon"; "Tue"; "Wed"; "Thu"; "Fri"; "Sat"].

Definition month_names : list string :=
  ["Jan"; "Feb"; "Mar"; "Apr"; "May"; "Jun";
   "Jul"; "Aug"; "Sep"; "Oct"; "Nov"; "Dec"].

Fixpoint zeros (n : nat) : string :=
  match n with
  | O => EmptyString
  | S n' => String "0" (zeros n')
  end.

Definition pad (width : nat) (n : Z) : string :=
  let s := pretty n in
  zeros (width - String.length s) +:+ s.

Definition toUTCString (d : t) : string :=
  match d with
  | Invalid => "Invalid Date"
  | At ms =>
      let secs := ms / 1000 in
      let days := secs / 86400 in
      let sod := secs mod 86400 in
      let '(y, m, dd) := civil_from_days days in
      default EmptyString (day_names !! Z.to_nat ((days + 4) mod 7))
      +:+ ", " +:+ pad 2 dd +:+ " "
      +:+ default EmptyString (month_names !! Z.to_nat (m - 1))
      +:+ " " +:+ pad 4 y +:+ " " +:+ pad 2 (sod / 3600) +:+ ":"
      +:+ pad 2 (sod mod 3600 / 60) +:+ ":" +:+ pad 2 (sod mod 60) +:+ " GMT"
  end.

Fixpoint index_of (x : string) (l : list string) : option Z :=
  match l with
  | [] => None
  | y :: rest => if String.eqb x y then Some 0 else Z.succ <$> index_of x rest
  end.

Definition number (s : string) : option Z :=
  match JS.parseInt (Some s) with
  | JS.Num z => Some z
  | JS.NaN => None
  end.

Definition newDate (v : JsStr) : t :=
  match v with
  | Some s =>
      match JS.split " " s with
      | [_; dd; mon; yyyy; hms; "GMT"] =>
          match number dd, index_of mon month_names, number yyyy,
                number <$> JS.split ":" hms with
          | Some d, Some m, Some y, [Some hh; Some mm; Some ss] =>
              At ((days_from_civil y (m + 1) d * 86400
                   + hh * 3600 + mm * 60 + ss) * 1000)
          | _, _, _, _ => Invalid
          end
      | _ => Invalid
      end
  | None => Invalid
  end.

End UTCDate.

#[export] Instance UTCDate_builtins : DateBuiltins :=
  {| Date := UTCDate.t;
     toUTCString := UTCDate.toUTCString;
     newDate := UTCDate.newDate |}.

(** * The vocabulary of the properties *)

Section StringVocabulary.
Import JS.

(** Every code unit of [s] passes [P]. *)
Fixpoint all_chars (P : ascii → bool) (s : string) : bool :=
  match s with
  | String c s' => P c && all_chars P s'
  | EmptyString => true
  end.

(** The characters of a printed number: digits. *)
Definition is_digit (c : ascii) : bool :=
  match digit_of c with Some _ => true | None => false end.

(** Whether one of the attribute segments carries the key [flag], compared
    the way the [switch] of [parse] compares it. *)
Definition has_flag (flag : string) (attributes : list string) : bool :=
  existsb
    (fun attribute =>
       match split "=" attribute with
       | k :: _ => String.eqb (toLowerCase (trim k)) flag
       | [] => false
       end)
    attributes.

(** A field text the wire form carries unchanged: no [;], no [=], no white
    space at either end. *)
Definition clean (s : string) : bool :=
  negb (includes ";" s) && negb (includes "=" s)
  && String.eqb (trim s) s.

Definition clean_required (v : JsStr) : bool :=
  match v with
  | Some s => clean s
  | None => false
  end.

Definition clean_optional (v : JsStr) : bool :=
  match v with
  | Some s => truthy v && clean s
  | None => true
  end.

(** The key of an attribute segment as the [switch] of [parse] sees it,
    and its value: the second piece of the segment split on [=], trimmed,
    or [undefined]. *)
Definition attribute_key (attribute : string) : string :=
  match split "=" attribute with
  | k :: _ => toLowerCase (trim k)
  | [] => EmptyString
  end.

Definition attribute_value (attribute : string) : JsStr :=
  trim <$> split "=" attribute !! 1%nat.

(** The value of the last segment whose key is [key], if there is one. *)
Fixpoint last_attribute (key : string) (attributes : list string)
    : option JsStr :=
  match attributes with
  | [] => None
  | a :: rest =>
      match last_attribute key rest with
      | Some v => Some v
      | None =>
          if String.eqb (attribute_key a) key then Some (attribute_value a)
          else None
      end
  end.

(** The keys [parse] knows. *)
Definition known_keys : list string :=
  ["expires"; "max-age"; "domain"; "path"; "secure"; "httponly"; "samesite"].

(** A text that is absent or clean. *)
Definition clean_or_absent (v : JsStr) : bool :=
  match v with
  | Some s => clean s
  | None => true
  end.

Definition piece (o : option string) : string :=
  match o with
  | Some s => String ";" s
  | None => EmptyString
  end.

Definition concat_pieces (os : list (option string)) : string :=
  foldr (fun o acc => piece o +:+ acc) EmptyString os.

End StringVocabulary.

Section CookieVocabulary.
Context `{DateBuiltins}.
Import JS Cookie.

(** The cookies whose fields the wire form can carry: [name] and [value]
    are clean strings; [domain], [path] and [sameSite] are absent or clean
    and not empty; the text of [expires] has no [;] and no [=]; [maxAge] is
    absent, NaN or an integer that is exact as a number. *)
Definition wire_safe (c : CookieObject) : bool :=
  clean_required (name c) && clean_required (value c)
  && clean_optional (domain c) && clean_optional (path c)
  && clean_optional (sameSite c)
  && match expires c with
     | Some d => negb (includes ";" (toUTCString d))
                 && negb (includes "=" (toUTCString d))
     | None => true
     end
  && match maxAge c with
     | Some (Num z) => Z.abs z <=? 9007199254740991
     | _ => true
     end.

(** The attribute segments [toString] emits after [name=value]. *)
Definition attribute_segments (c : CookieObject) : list (option string) :=
  [ (fun d => "Expires=" +:+ toUTCString d) <$> expires c;
    (fun n => "Max-Age=" +:+ numberToString n) <$> maxAge c;
    if truthy (domain c) then Some ("Domain=" +:+ template (domain c))
    else None;
    if truthy (path c) then Some ("Path=" +:+ template (path c)) else None;
    if secure c then Some "Secure" else None;
    if httpOnly c then Some "HttpOnly" else None;
    if truthy (sameSite c) then Some ("SameSite=" +:+ template (sameSite c))
    else None ].

(** The texts every options record along [parse] holds are absent or
    clean. *)
Definition clean_texts (o : CookieObjectOptions) : bool :=
  clean_or_absent (opt_name o) && clean_or_absent (opt_value o)
  && clean_or_absent (opt_domain o) && clean_or_absent (opt_path o)
  && clean_or_absent (opt_sameSite o).

End CookieVocabulary.

Definition session_cookie : Cookie.CookieObject :=
  {| Cookie.name := Some "sid"; Cookie.value := Some "abc123";
     Cookie.expires := Some (UTCDate.At 1445412480123);
     Cookie.maxAge := Some (JS.Num 3600);
     Cookie.domain := Some "example.com"; Cookie.path := Some "/docs";
     Cookie.secure := true; Cookie.httpOnly := false;
     Cookie.sameSite := Some "lax" |}.

Section CORSVocabulary.
Import JS Response CORS.

Definition allow_origin_key : string := "access-control-allow-origin".

(** The response after the allow-origin stage. *)
Definition origin_stage (reqOrigin : string) (res : Response)
    (options : CORSMiddlewareOptions) : Response :=
  match allowOrigin options with
  | None => set_header allow_origin_key (Some "*") res
  | Some origins => allowOrigin_some reqOrigin res origins
  end.

Definition cors_request (method : string) (origin : string) : Request.t :=
  {| Request.method := method;
     Request.headers := {[ "origin" := origin ]} |}.

Definition fresh_response : Response :=
  {| status := None; headers := ∅; headersSent := false; stream := [] |}.

(** What the allow-origin stage writes, if anything: it depends on the
    allow-list and the request's Origin alone. *)
Definition origin_effect (reqOrigin : string)
    (options : CORSMiddlewareOptions) : option string :=
  match allowOrigin options with
  | None => Some "*"
  | Some origins =>
      spec_entry_value reqOrigin
        <$> find (spec_entry_matches reqOrigin) origins
  end.

(** The options whose allow-list, if there is one, holds strings only: no
    [RegExp], so nothing in them that a run could change. *)
Definition origin_strings_only (options : CORSMiddlewareOptions) : bool :=
  match allowOrigin options with
  | None => true
  | Some origins =>
      forallb (fun origin => match origin with
                             | OriginString _ => true
                             | OriginRegExp _ => false
                             end) origins
  end.

End CORSVocabulary.

Section EncoderVocabulary.
Import JS Response BufferEncoder.

(** The closure right after [executeBufferEncoderMiddleware] on a response
    whose only header is the given content-type. *)
Definition state_with_content_type (contentType : string) : State :=
  {| res := {| status := None;
               headers := {[ "content-type" := Some contentType ]};
               headersSent := false; stream := [] |};
     destination := []; endCalled := false; pendingChunks := [];
     charset := None; encoding := None; hasSetJSON := false |}.

(** Everything but the response and the cached charset. *)
Definition same_locals (st st' : State) : Prop :=
  destination st' = destination st
  ∧ endCalled st' = endCalled st
  ∧ pendingChunks st' = pendingChunks st
  ∧ encoding st' = encoding st
  ∧ hasSetJSON st' = hasSetJSON st
  ∧ headersSent (res st') = headersSent (res st).

(** The chunks the ['data'] listener turns into a [Buffer]. *)
Definition encodable (any : Value) : bool :=
  match any with
  | VBuffer _ | VString _ | VObject _ => true
  | _ => false
  end.

(** [b] is what the listener makes of [any]. *)
Definition chunk_of (any : Value) (b : Buffer) : Prop :=
  match any with
  | VBuffer b' => b = b'
  | VString s => ∃ e, b = BufferFrom s e
  | VObject (Some text) => ∃ e, b = BufferFrom text e
  | _ => False
  end.

(** The closure after the middleware ran on a GET request and a response
    without headers. *)
Definition installed : option State :=
  (executeBufferEncoderMiddleware
     {| Request.method := "GET"; Request.headers := ∅ |} fresh_response).1.2.





(** How often [end] was called on a writable, and how many ['end'] events
    a run holds. *)
Definition count_ends (calls : list StreamCall) : nat :=
  length (List.filter (fun call => match call with
                                  | CallEnd _ => true
                                  | CallWrite _ => false
                                  end) calls).

Definition count_end_events (evs : list Event) : nat :=
  length (List.filter (fun ev => match ev with End => true | _ => false end)
            evs).

(** The events that are the stream's own, not other code's. *)
Definition from_stream (ev : Event) : bool :=
  match ev with
  | Other _ => false
  | _ => true
  end.

(** The key of a content-type directive as [parseCharset] compares it, and
    the first directive whose key is [charset]. *)
Definition directive_key (directive : string) : string :=
  match split "=" directive with
  | p0 :: _ => toLowerCase (trim p0)
  | [] => EmptyString
  end.

Definition charset_directive (contentType : string) : option string :=
  find (fun d => String.eqb (directive_key d) "charset")
    (split ";" contentType).

(** The charset [parseCharset] falls back on. *)
Definition fallback_charset (options : BufferEncoderMiddlewareOptions)
    : string :=
  if truthy (defaultCharset options) then template (defaultCharset options)
  else "utf-8".

End EncoderVocabulary.

(** * Properties *)

(** ** Strings *)

Section StringFacts.
Import JS.

Lemma split_nonempty sep s : ∃ h t, split sep s = h :: t.
Proof.
  induction s as [|c s IH]; simpl; [by eauto|].
  destruct (Ascii.eqb c sep); [by eauto|].
  destruct IH as (h & t & ->). eauto.
Qed.

Lemma split_lookup_0 sep s : is_Some (split sep s !! 0%nat).
Proof. destruct (split_nonempty sep s) as (h & t & ->). by eexists. Qed.

Lemma split_no_sep sep s : includes sep s = false → split sep s = [s].
Proof.
  induction s as [|c s IH]; simpl; [done|].
  destruct (Ascii.eqb c sep); simpl; [done|]. intros Hs. by rewrite IH.
Qed.

Lemma split_app_sep sep a b :
  split sep (a +:+ String sep b) = (split sep a ++ split sep b)%list.
Proof.
  induction a as [|c a IH]; simpl.
  - by rewrite Ascii.eqb_refl.
  - destruct (Ascii.eqb c sep); rewrite IH; [done|].
    by destruct (split_nonempty sep a) as (h & t & ->).
Qed.

Lemma split_pieces_no_sep sep s :
  Forall (fun piece => includes sep piece = false) (split sep s).
Proof.
  induction s as [|c s IH]; simpl; [by repeat constructor|].
  destruct (Ascii.eqb c sep) eqn:Ec; [by constructor|].
  destruct (split_nonempty sep s) as (h & t & E). rewrite E in *.
  inversion IH; subst. constructor; [|done]. simpl. by rewrite Ec.
Qed.


Lemma append_cons c a b : String c a +:+ b = String c (a +:+ b).
Proof. reflexivity. Qed.

Lemma append_nil_r s : s +:+ EmptyString = s.
Proof. induction s as [|c s IH]; [done|]. by rewrite append_cons, IH. Qed.

Lemma append_assoc a b c : (a +:+ b) +:+ c = a +:+ (b +:+ c).
Proof.
  induction a as [|x a IH]; [done|]. by rewrite !append_cons, IH.
Qed.

Lemma includes_app c a b :
  includes c (a +:+ b) = includes c a || includes c b.
Proof.
  induction a as [|x a IH]; [done|].
  rewrite append_cons. cbn. rewrite IH. by rewrite orb_assoc.
Qed.

Lemma trimEnd_no_ws s :
  all_chars (fun c => negb (is_ws c)) s = true → trimEnd s = s.
Proof.
  induction s as [|c s IH]; [done|]. cbn.
  intros [Hc Hs]%andb_prop. rewrite (IH Hs).
  destruct s; [|done]. by destruct (is_ws c).
Qed.

Lemma trim_no_ws s :
  all_chars (fun c => negb (is_ws c)) s = true → trim s = s.
Proof.
  intros Hs. unfold trim.
  assert (trimStart s = s) as ->; [|by apply trimEnd_no_ws].
  destruct s as [|c s]; [done|]. cbn in *.
  apply andb_prop in Hs as [Hc _]. by destruct (is_ws c).
Qed.

Lemma includes_all_chars c s :
  all_chars (fun d => negb (Ascii.eqb d c)) s = true → includes c s = false.
Proof.
  induction s as [|d s IH]; [done|]. cbn.
  intros [Hd Hs]%andb_prop. rewrite (IH Hs). by destruct (Ascii.eqb d c).
Qed.

Lemma pretty_N_char_digit x :
  (x < 10)%N → digit_of (pretty_N_char x) = Some (Z.of_N x).
Proof.
  intros Hx.
  assert (x = 0 ∨ x = 1 ∨ x = 2 ∨ x = 3 ∨ x = 4 ∨ x = 5 ∨ x = 6 ∨ x = 7
          ∨ x = 8 ∨ x = 9)%N as Hcases by lia.
  repeat (destruct Hcases as [->|Hcases]; [reflexivity|]). by subst.
Qed.

Lemma pretty_N_go_all_chars (P : ascii → bool) x :
  (∀ c, is_digit c = true → P c = true) →
  ∀ s, all_chars P s = true → all_chars P (pretty_N_go x s) = true.
Proof.
  intros HP. induction (N.lt_wf_0 x) as [x _ IH]; intros s Hs.
  assert (x = 0 ∨ 0 < x)%N as [->|Hx] by lia; [by rewrite pretty_N_go_0|].
  rewrite pretty_N_go_step by done. apply IH; [by apply N.div_lt|].
  cbn. rewrite Hs, andb_true_r. apply HP. unfold is_digit.
  rewrite pretty_N_char_digit; [done|]. by apply N.mod_lt.
Qed.

Lemma pretty_N_go_parse x :
  ∃ k : nat, ∀ acc s,
    parse_digits acc (pretty_N_go x s)
    = parse_digits (acc * 10 ^ Z.of_nat k + Z.of_N x) s.
Proof.
  induction (N.lt_wf_0 x) as [x _ IH].
  assert (x = 0 ∨ 0 < x)%N as [->|Hx] by lia.
  - exists 0%nat. intros acc s. rewrite pretty_N_go_0. f_equal. cbn. lia.
  - destruct (IH (x `div` 10)%N) as [k Hk]; [by apply N.div_lt|].
    exists (S k). intros acc s.
    rewrite pretty_N_go_step, Hk by done. cbn [parse_digits].
    rewrite pretty_N_char_digit by (by apply N.mod_lt). f_equal.
    rewrite Nat2Z.inj_succ, Z.pow_succ_r by lia.
    rewrite N2Z.inj_div, N2Z.inj_mod.
    pose proof (Z.div_mod (Z.of_N x) 10). lia.
Qed.

Lemma pretty_N_go_head x s :
  (0 < x)%N → ∃ c r, pretty_N_go x s = String c r ∧ is_digit c = true.
Proof.
  revert s. induction (N.lt_wf_0 x) as [x _ IH]; intros s Hx.
  rewrite pretty_N_go_step by done.
  destruct (N.eq_0_gt_0_cases (x `div` 10)) as [->|Hd].
  - rewrite pretty_N_go_0. eexists _, _. split; [done|]. unfold is_digit.
    rewrite pretty_N_char_digit; [done|]. by apply N.mod_lt.
  - apply IH; [by apply N.div_lt|done].
Qed.

Lemma parseInt_digits s c r :
  s = String c r → is_digit c = true → all_chars is_digit s = true →
  parseInt (Some s) = Num (parse_digits 0 s).
Proof.
  intros -> Hc Hall. unfold parseInt. cbn [template trimStart].
  assert (is_ws c = false) as ->.
  { revert Hc. unfold is_digit, digit_of, is_ws.
    destruct (N_of_ascii c) as [|p]; [done|].
    destruct (_ && _)%N eqn:E; [|done]. intros _.
    apply andb_prop in E as [?%N.leb_le ?%N.leb_le].
    repeat match goal with
           | |- context [(?a <=? ?b)%N] => destruct (N.leb_spec a b)
           | |- context [(?a =? ?b)%N] => destruct (N.eqb_spec a b)
           end; simpl; try done; lia. }
  assert (Ascii.eqb c "-" = false ∧ Ascii.eqb c "+" = false) as [-> ->].
  { revert Hc. unfold is_digit, digit_of.
    split; destruct (Ascii.eqb_spec c "-"), (Ascii.eqb_spec c "+");
      subst; try done; by vm_compute in Hc. }
  unfold is_digit in Hc. by destruct (digit_of c).
Qed.

Lemma pretty_pos_digits (p : positive) :
  ∃ c r, pretty (Npos p) = String c r ∧ is_digit c = true
    ∧ all_chars is_digit (pretty (Npos p)) = true
    ∧ parse_digits 0 (pretty (Npos p)) = Zpos p.
Proof.
  unfold pretty, pretty_N. rewrite decide_False by done.
  destruct (pretty_N_go_head (Npos p) EmptyString) as (c & r & E & Hc); [lia|].
  exists c, r. split; [done|]. split; [done|]. split.
  - by apply pretty_N_go_all_chars.
  - destruct (pretty_N_go_parse (Npos p)) as [k Hk]. rewrite Hk. cbn. lia.
Qed.

Lemma parseInt_numberToString n :
  parseInt (Some (numberToString n)) = n.
Proof.
  destruct n as [|[|p|p]]; [reflexivity..| |].
  - destruct (pretty_pos_digits p) as (c & r & E & Hc & Hall & Hv).
    unfold numberToString.
    change (pretty (Zpos p)) with (pretty (Npos p)).
    by rewrite (parseInt_digits _ c r E Hc Hall), Hv.
  - destruct (pretty_pos_digits p) as (c & r & E & Hc & Hall & Hv).
    unfold numberToString.
    change (pretty (Zneg p)) with (String "-" (pretty (Npos p))).
    unfold parseInt. cbn [template trimStart].
    change (is_ws "-") with false. cbv iota.
    change (Ascii.eqb "-" "-") with true. cbv iota.
    rewrite E at 1. unfold is_digit in Hc.
    destruct (digit_of c); [|done]. by rewrite Hv.
Qed.

Lemma digit_not_ws c : is_digit c = true → negb (is_ws c) = true.
Proof.
  unfold is_digit, digit_of, is_ws.
  destruct (_ && _)%N eqn:E; [|done]. intros _.
  apply andb_prop in E as [?%N.leb_le ?%N.leb_le].
  repeat match goal with
         | |- context [(?a <=? ?b)%N] => destruct (N.leb_spec a b)
         | |- context [(?a =? ?b)%N] => destruct (N.eqb_spec a b)
         end; simpl; try done; lia.
Qed.

Lemma digit_not_char d :
  is_digit d = false → ∀ x, is_digit x = true → negb (Ascii.eqb x d) = true.
Proof.
  intros Hd x Hx. destruct (Ascii.eqb_spec x d); [congruence|done].
Qed.

Lemma numberToString_all_chars (P : ascii → bool) n :
  (∀ c, is_digit c = true → P c = true) →
  P "-"%char = true → P "N"%char = true → P "a"%char = true →
  all_chars P (numberToString n) = true.
Proof.
  intros Hd Hm HN Ha.
  assert (Hpos : ∀ p, all_chars P (pretty (Npos p)) = true).
  { intros p. unfold pretty, pretty_N. rewrite decide_False by done.
    by apply pretty_N_go_all_chars. }
  destruct n as [|[|p|p]]; unfold numberToString.
  - change (all_chars P "NaN")
      with (P "N"%char && (P "a"%char && (P "N"%char && true))).
    by rewrite HN, Ha.
  - change (all_chars P (pretty 0)) with (P "0"%char && true).
    by rewrite Hd.
  - apply Hpos.
  - change (pretty (Zneg p)) with (String "-" (pretty (Npos p))).
    cbn [all_chars]. by rewrite Hm, Hpos.
Qed.

End StringFacts.

(** ** CookieObject.parse *)

Section CookieParse.
Context `{DateBuiltins}.
Import JS Cookie.

Lemma parse_attribute_first options attribute :
  ∃ k, parse_attribute options attribute 0
       = Ok (set_opt_value (map trim (split "=" attribute) !! 1%nat)
               (set_opt_name (Some k) options)).
Proof.
  unfold parse_attribute. simpl.
  destruct (split_nonempty "=" attribute) as (h & t & ->). simpl. eauto.
Qed.

Lemma parse_attribute_flags options attribute index :
  index ≠ 0%nat →
  ∃ options', parse_attribute options attribute index = Ok options'
    ∧ default false (opt_secure options')
      = default false (opt_secure options) || has_flag "secure" [attribute]
    ∧ default false (opt_httpOnly options')
      = default false (opt_httpOnly options) || has_flag "httponly" [attribute].
Proof.
  intros Hi. unfold parse_attribute, has_flag. simpl.
  destruct (Nat.eqb_spec index 0) as [|_]; [done|].
  destruct (split_nonempty "=" attribute) as (h & t & ->). simpl.
  set (k := toLowerCase (trim h)).
  repeat match goal with
         | |- context [String.eqb k ?lit] =>
             destruct (String.eqb_spec k lit) as [->|?]
         end;
    eexists; (split; [reflexivity|]); simpl;
    rewrite ?orb_false_r, ?orb_true_r; try done;
    repeat match goal with
           | |- context [String.eqb k ?lit] =>
               destruct (String.eqb_spec k lit) as [->|?]; try done
           end;
    simpl; rewrite ?orb_false_r, ?orb_true_r; done.
Qed.

Lemma forEach_attribute_flags attributes : ∀ options index,
  index ≠ 0%nat →
  ∃ options', forEach_attribute options attributes index = Ok options'
    ∧ default false (opt_secure options')
      = default false (opt_secure options) || has_flag "secure" attributes
    ∧ default false (opt_httpOnly options')
      = default false (opt_httpOnly options) || has_flag "httponly" attributes.
Proof.
  induction attributes as [|a rest IH]; intros options index Hi.
  - exists options. simpl. by rewrite !orb_false_r.
  - destruct (parse_attribute_flags options a index Hi) as (o1 & E1 & S1 & H1).
    destruct (IH o1 (S index)) as (o2 & E2 & S2 & H2); [done|].
    exists o2. cbn [forEach_attribute]. rewrite E1. cbn [rbind].
    split; [done|]. rewrite S2, H2, S1, H1.
    unfold has_flag. cbn [existsb].
    rewrite !orb_false_r, !orb_assoc. done.
Qed.

(** C8. [CookieObject.parse] returns a cookie for every string and never
    raises; [secure] and [httpOnly] of the result are booleans, [true]
    exactly when an attribute segment after the first carries that key, so
    [false] when the attribute is absent. *)
Theorem parse_total (cookieString : string) :
  ∃ c, parse cookieString = Ok c
    ∧ secure c = has_flag "secure" (tail (split ";" cookieString))
    ∧ httpOnly c = has_flag "httponly" (tail (split ";" cookieString)).
Proof.
  unfold parse.
  destruct (split_nonempty ";" cookieString) as (first & attributes & ->).
  cbn [forEach_attribute tail].
  destruct (parse_attribute_first empty_options first) as (k & ->).
  cbn [rbind].
  match goal with
  | |- context [forEach_attribute ?o attributes 1] =>
      destruct (forEach_attribute_flags attributes o 1) as (o' & -> & S & Hh);
        [done|]
  end.
  exists (construct o'). cbn [rbind]. split; [done|].
  simpl in S, Hh. unfold construct; simpl. by rewrite S, Hh.
Qed.

Lemma parse_attribute_keeps_name_value options attribute index :
  index ≠ 0%nat →
  ∀ options', parse_attribute options attribute index = Ok options' →
  opt_name options' = opt_name options
  ∧ opt_value options' = opt_value options.
Proof.
  intros Hi options'. unfold parse_attribute.
  destruct (Nat.eqb_spec index 0) as [|_]; [done|].
  destruct (map trim (split "=" attribute) !! 0%nat) as [k|]; [|done].
  repeat match goal with
         | |- context [String.eqb ?a ?b] => destruct (String.eqb a b)
         end; by intros [= <-].
Qed.

Lemma forEach_attribute_keeps_name_value attributes : ∀ options index,
  index ≠ 0%nat →
  ∀ options', forEach_attribute options attributes index = Ok options' →
  opt_name options' = opt_name options
  ∧ opt_value options' = opt_value options.
Proof.
  induction attributes as [|a rest IH]; intros options index Hi options'.
  - by intros [= <-].
  - cbn [forEach_attribute].
    destruct (parse_attribute options a index) as [o1|] eqn:E; [|done].
    apply parse_attribute_keeps_name_value in E as [Hn Hv]; [|done].
    cbn [rbind]. intros [Hn' Hv']%IH; [|done]. split; congruence.
Qed.

(** The name and the value of the parsed cookie are the first two pieces
    of the first segment split on every [=], trimmed; a third piece and the
    ones after it are not read. *)
Lemma parse_name_value (cookieString : string) :
  ∃ c first rest,
    parse cookieString = Ok c
    ∧ split ";" cookieString = first :: rest
    ∧ name c = trim <$> split "=" first !! 0%nat
    ∧ value c = trim <$> split "=" first !! 1%nat.
Proof.
  destruct (split_nonempty ";" cookieString) as (first & rest & Hs).
  unfold parse. rewrite Hs. cbn [forEach_attribute].
  unfold parse_attribute at 1. cbn [Nat.eqb rbind].
  match goal with
  | |- context [forEach_attribute ?o rest 1] =>
      destruct (forEach_attribute_flags rest o 1) as (o' & E & _); [done|];
        rewrite E;
        apply forEach_attribute_keeps_name_value in E as [Hn Hv]; [|done]
  end.
  cbn [rbind]. eexists _, first, rest. split; [done|]. split; [done|].
  unfold construct; cbn. rewrite Hn, Hv. cbn. by rewrite !list_lookup_fmap.
Qed.

(** C7. On [sid=a=b] the first segment is split on every [=], and the
    parsed value is [a], the text between the first and the second [=];
    [=b] is lost. *)
Theorem parse_value_cut_at_second_equals :
  parse "sid=a=b"
  = Ok {| name := Some "sid"; value := Some "a"; expires := None;
          maxAge := None; domain := None; path := None; secure := false;
          httpOnly := false; sameSite := None |}.
Proof. reflexivity. Qed.

End CookieParse.

(** ** executeCORSMiddleware *)

Section CORSFacts.
Import JS Response CORS.

Lemma allowOrigin_callback_spec reqOrigin res e :
  allowOrigin_callback reqOrigin res e
  = if spec_entry_matches reqOrigin e
    then (set_header allow_origin_key (Some (spec_entry_value reqOrigin e)) res,
          true)
    else (res, false).
Proof.
  destruct e as [o|test]; simpl.
  - destruct (String.eqb o "*"); simpl; [done|].
    by destruct (String.eqb (toLowerCase reqOrigin) (toLowerCase o)).
  - by destruct (test reqOrigin).
Qed.

Lemma allowOrigin_some_spec reqOrigin origins : ∀ res,
  allowOrigin_some reqOrigin res origins
  = match find (spec_entry_matches reqOrigin) origins with
    | Some e =>
        set_header allow_origin_key (Some (spec_entry_value reqOrigin e)) res
    | None => res
    end.
Proof.
  induction origins as [|e rest IH]; intros res; simpl; [done|].
  rewrite allowOrigin_callback_spec.
  destruct (spec_entry_matches reqOrigin e); [done|]. apply IH.
Qed.

(** Entries after the first match play no part. *)
Lemma allowOrigin_some_stops reqOrigin res before e after :
  spec_entry_matches reqOrigin e = true →
  allowOrigin_some reqOrigin res (before ++ e :: after)
  = allowOrigin_some reqOrigin res (before ++ [e]).
Proof.
  intros He. revert res.
  induction before as [|b before IH]; intros res; simpl.
  - rewrite allowOrigin_callback_spec, He. done.
  - rewrite allowOrigin_callback_spec.
    destruct (spec_entry_matches reqOrigin b); [done|]. apply IH.
Qed.

Lemma set_header_other k v res k' :
  k ≠ k' → headers (set_header k v res) !! k' = headers res !! k'.
Proof. intros ?. unfold set_header; simpl. by rewrite lookup_insert_ne. Qed.

Lemma origin_stage_frame reqOrigin res options :
  status (origin_stage reqOrigin res options) = status res
  ∧ stream (origin_stage reqOrigin res options) = stream res
  ∧ headersSent (origin_stage reqOrigin res options) = headersSent res
  ∧ ∀ k, k ≠ allow_origin_key →
      headers (origin_stage reqOrigin res options) !! k = headers res !! k.
Proof.
  unfold origin_stage. destruct (allowOrigin options) as [origins|].
  - rewrite allowOrigin_some_spec.
    destruct (find _ origins); repeat split; try done.
    intros k ?. by apply set_header_other.
  - repeat split; try done. intros k ?. by apply set_header_other.
Qed.

(** Nothing after the allow-origin stage writes that header. *)
Lemma execute_allow_origin req res options reqOrigin :
  Request.headers req !! "origin" = Some reqOrigin →
  headers (executeCORSMiddleware req res options).1 !! allow_origin_key
  = headers (origin_stage reqOrigin res options) !! allow_origin_key.
Proof.
  intros Ho. unfold executeCORSMiddleware. rewrite Ho.
  fold allow_origin_key. fold (origin_stage reqOrigin res options).
  generalize (origin_stage reqOrigin res options) as r. intros r.
  destruct (allowCredentials options), (String.eqb (Request.method req) "OPTIONS"),
    (allowMethods options), (allowHeaders options),
    (number_truthy (maxAge options)), (exposeHeaders options);
    simpl; rewrite ?lookup_insert_ne by done; done.
Qed.

(** C2, as the code has it.  With an Origin header in the request, the
    allow-origin header after the middleware is [*], the request's Origin as
    it came, or what the response already held (nothing, if it held none).
    Without an allow-list it is [*].  With one, the first entry that matches
    decides: [*] for a [*] entry, the Origin for a string entry equal to it
    without regard to case or for a pattern whose test accepts it; entries
    after that one have no influence on the response; when no entry matches
    the header stays as it was. *)
Theorem allow_origin_first_match req res options reqOrigin :
  Request.headers req !! "origin" = Some reqOrigin →
  let after := (executeCORSMiddleware req res options).1 in
  let h := headers after !! allow_origin_key in
  (h = Some (Some "*") ∨ h = Some (Some reqOrigin)
   ∨ h = headers res !! allow_origin_key)
  ∧ (allowOrigin options = None → h = Some (Some "*"))
  ∧ (∀ origins, allowOrigin options = Some origins →
       h = match find (spec_entry_matches reqOrigin) origins with
           | Some e => Some (Some (spec_entry_value reqOrigin e))
           | None => headers res !! allow_origin_key
           end)
  ∧ (∀ before e later,
       spec_entry_matches reqOrigin e = true →
       allowOrigin_some reqOrigin res (before ++ e :: later)
       = allowOrigin_some reqOrigin res (before ++ [e])).
Proof.
  intros Ho after h.
  assert (Hh : h = headers (origin_stage reqOrigin res options)
                     !! allow_origin_key)
    by (by apply execute_allow_origin).
  assert (Hlist : ∀ origins, allowOrigin options = Some origins →
       h = match find (spec_entry_matches reqOrigin) origins with
           | Some e => Some (Some (spec_entry_value reqOrigin e))
           | None => headers res !! allow_origin_key
           end).
  { intros origins Ha. rewrite Hh. unfold origin_stage. rewrite Ha.
    rewrite allowOrigin_some_spec. destruct (find _ origins); [|done].
    unfold set_header; simpl. by rewrite lookup_insert_eq. }
  assert (Hnone : allowOrigin options = None → h = Some (Some "*")).
  { intros Ha. rewrite Hh. unfold origin_stage. rewrite Ha.
    unfold set_header; simpl. by rewrite lookup_insert_eq. }
  split; [|split; [done|split; [done|]]].
  - destruct (allowOrigin options) as [origins|] eqn:Ha; [|by left; auto].
    rewrite (Hlist origins eq_refl).
    destruct (find _ origins) as [[o|test]|]; simpl; auto.
    destruct (String.eqb o "*"); auto.
  - intros. by apply allowOrigin_some_stops.
Qed.

Lemma allow_origin_first_match_witness :
  let h := headers
             (executeCORSMiddleware (cors_request "GET" "https://B.example")
                fresh_response
                {| allowOrigin :=
                     Some [OriginString "https://a.example";
                           OriginString "https://b.example";
                           OriginString "*"];
                   allowCredentials := true; allowMethods := None;
                   allowHeaders := None; maxAge := None;
                   exposeHeaders := None |}).1 !! allow_origin_key in
  h = Some (Some "https://B.example").
Proof.
  intros h.
  pose proof (allow_origin_first_match
                (cors_request "GET" "https://B.example") fresh_response
                {| allowOrigin :=
                     Some [OriginString "https://a.example";
                           OriginString "https://b.example";
                           OriginString "*"];
                   allowCredentials := true; allowMethods := None;
                   allowHeaders := None; maxAge := None;
                   exposeHeaders := None |}
                "https://B.example" eq_refl) as (_ & _ & Hl & _).
  exact (Hl _ eq_refl).
Defined.

(** C2 as worded fails on a response that already carries the header: with
    no entry matching, the header keeps a value that is neither [*], nor the
    request's Origin, nor absent. *)
Lemma allow_origin_keeps_earlier_value :
  let res := set_header allow_origin_key (Some "https://old.example")
               fresh_response in
  let h := headers
             (executeCORSMiddleware (cors_request "GET" "https://b.example")
                res
                {| allowOrigin := Some [OriginString "https://a.example"];
                   allowCredentials := false; allowMethods := None;
                   allowHeaders := None; maxAge := None;
                   exposeHeaders := None |}).1 !! allow_origin_key in
  h = Some (Some "https://old.example")
  ∧ h ≠ Some (Some "*") ∧ h ≠ Some (Some "https://b.example") ∧ h ≠ None.
Proof. vm_compute. repeat split; discriminate. Qed.

(** C3. A request with method OPTIONS and an Origin header, under any
    configuration: the status becomes 200, [end('OK')] is called on the
    response stream, and the middleware returns [end]. *)
Theorem preflight_ends req res options reqOrigin :
  Request.method req = "OPTIONS" →
  Request.headers req !! "origin" = Some reqOrigin →
  let '(after, signal) := executeCORSMiddleware req res options in
  status after = Some 200
  ∧ stream after = (stream res ++ [CallEnd (Some (VString "OK"))])%list
  ∧ signal = MwEnd.
Proof.
  intros Hm Ho. unfold executeCORSMiddleware. rewrite Ho, Hm. simpl.
  fold allow_origin_key. fold (origin_stage reqOrigin res options).
  destruct (origin_stage_frame reqOrigin res options) as (_ & Hs & _).
  repeat split.
  rewrite <- Hs.
  destruct (allowCredentials options), (allowMethods options),
    (allowHeaders options), (number_truthy (maxAge options)); done.
Qed.

Lemma preflight_ends_witness :
  let '(after, signal) :=
    executeCORSMiddleware (cors_request "OPTIONS" "https://a.example")
      fresh_response default_options in
  status after = Some 200
  ∧ stream after = [CallEnd (Some (VString "OK"))]
  ∧ signal = MwEnd.
Proof.
  exact (preflight_ends (cors_request "OPTIONS" "https://a.example")
           fresh_response default_options "https://a.example"
           eq_refl eq_refl).
Defined.

(** C9. A request with an Origin header and a method other than OPTIONS:
    the middleware returns [continue], the status, the stream and the
    sent-latch of the response are as before, and so is every header entry
    other than allow-origin, allow-credentials and expose-headers. *)
Theorem simple_cors_frame req res options reqOrigin :
  Request.method req ≠ "OPTIONS" →
  Request.headers req !! "origin" = Some reqOrigin →
  let '(after, signal) := executeCORSMiddleware req res options in
  signal = MwContinue
  ∧ status after = status res
  ∧ stream after = stream res
  ∧ headersSent after = headersSent res
  ∧ ∀ k, k ≠ "access-control-allow-origin" →
         k ≠ "access-control-allow-credentials" →
         k ≠ "access-control-expose-headers" →
         headers after !! k = headers res !! k.
Proof.
  intros Hm Ho. unfold executeCORSMiddleware. rewrite Ho.
  destruct (String.eqb_spec (Request.method req) "OPTIONS") as [|_]; [done|].
  fold allow_origin_key. fold (origin_stage reqOrigin res options).
  destruct (origin_stage_frame reqOrigin res options) as (H1 & H2 & H3 & H4).
  destruct (allowCredentials options), (exposeHeaders options); simpl;
    repeat split; try done; intros k ? ? ?;
    rewrite ?lookup_insert_ne by done; by apply H4.
Qed.

Lemma simple_cors_frame_witness :
  let '(after, signal) :=
    executeCORSMiddleware (cors_request "GET" "https://a.example")
      fresh_response
      {| allowOrigin := None; allowCredentials := true; allowMethods := None;
         allowHeaders := None; maxAge := None;
         exposeHeaders := Some ["x-a"; "x-b"] |} in
  signal = MwContinue
  ∧ status after = None
  ∧ stream after = []
  ∧ headersSent after = false
  ∧ ∀ k, k ≠ "access-control-allow-origin" →
         k ≠ "access-control-allow-credentials" →
         k ≠ "access-control-expose-headers" →
         headers after !! k = None.
Proof.
  exact (simple_cors_frame (cors_request "GET" "https://a.example")
           fresh_response
           {| allowOrigin := None; allowCredentials := true;
              allowMethods := None; allowHeaders := None; maxAge := None;
              exposeHeaders := Some ["x-a"; "x-b"] |}
           "https://a.example" ltac:(discriminate) eq_refl).
Defined.

End CORSFacts.

(** ** The buffer encoder: charset resolution *)

Section CharsetFacts.
Import JS Response BufferEncoder.

Lemma same_locals_refl st : same_locals st st.
Proof. by repeat split. Qed.

Lemma same_locals_trans st1 st2 st3 :
  same_locals st1 st2 → same_locals st2 st3 → same_locals st1 st3.
Proof.
  unfold same_locals. intros (?&?&?&?&?&?) (?&?&?&?&?&?).
  repeat split; congruence.
Qed.

Lemma charset_callback_locals st directive st' found :
  charset_callback st directive = Ok (st', found) →
  same_locals st st' ∧ res st' = res st.
Proof.
  unfold charset_callback.
  destruct (split "=" directive !! 0%nat) as [p0|]; [|done].
  destruct (negb _); [intros [= <- <-]; split; [apply same_locals_refl|done]|].
  simpl. destruct (_ <$> _) as [cs|]; [|done].
  destruct (_ && _); intros [= <- <-]; by repeat split.
Qed.

Lemma charset_some_locals directives : ∀ st st',
  charset_some st directives = Ok st' →
  same_locals st st' ∧ res st' = res st.
Proof.
  induction directives as [|d rest IH]; intros st st'; simpl.
  - intros [= <-]. split; [apply same_locals_refl|done].
  - destruct (charset_callback st d) as [[st1 found]|] eqn:E; [|done].
    apply charset_callback_locals in E as [L1 R1]. simpl.
    destruct found.
    + intros [= <-]. done.
    + intros E2. apply IH in E2 as [L2 R2].
      split; [by eapply same_locals_trans|congruence].
Qed.

Lemma parseCharset_locals options st st' cs :
  parseCharset options st = Ok (st', cs) → same_locals st st'.
Proof.
  unfold parseCharset.
  destruct (truthy (charset st)); [intros [= <- _]; apply same_locals_refl|].
  set (ct := get_header "content-type" (res st)).
  assert (∃ st1, (if truthy ct then charset_some st (split ";" (template ct))
                  else Ok st) = Ok st1 ∧ same_locals st st1
                 ∨ (if truthy ct then charset_some st (split ";" (template ct))
                    else Ok st) = Throw TypeError) as [st1 [[-> L1]| ->]].
  { destruct (truthy ct).
    - destruct (charset_some st _) as [st1|[]] eqn:E; [|by exists st; right].
      exists st1. left. split; [done|]. by apply charset_some_locals in E as [].
    - exists st. left. split; [done|apply same_locals_refl]. }
  2: done.
  simpl. destruct (negb (truthy (charset st1))).
  - destruct (setCharset options && _); intros [= <- _];
      (eapply same_locals_trans; [exact L1|]); by repeat split.
  - by intros [= <- _].
Qed.

(** C4. On the content-type [text/plain;charset], whose charset parameter
    has no [=], [parseCharset] raises a [TypeError] ([indexOf] is called on
    [undefined]) whatever the options, and so does the ['data'] listener on
    a string chunk: nothing degrades to the default charset. *)
Theorem parseCharset_raises_on_bare_charset options :
  parseCharset options (state_with_content_type "text/plain;charset")
  = Throw TypeError
  ∧ on_data options (VString "a")
      (state_with_content_type "text/plain;charset")
    = Throw TypeError.
Proof. split; reflexivity. Qed.

(** With an empty value after [=] the default is used. *)
Lemma parseCharset_empty_value_defaults :
  snd <$> (match parseCharset default_options
                   (state_with_content_type "text/plain;charset=")
           with Ok r => Some r | Throw _ => None end)
  = Some "utf-8".
Proof. reflexivity. Qed.

(** C10. With [setCharset], no cached charset, headers unsent and no
    content-type entry in the response, [parseCharset] returns the default
    charset (the configured one, or [utf-8]) and sets the content-type
    header to [;charset=] followed by it. *)
Theorem parseCharset_sets_bare_charset options st :
  setCharset options = true →
  truthy (charset st) = false →
  headersSent (res st) = false →
  headers (res st) !! "content-type" = None →
  let cs := if truthy (defaultCharset options)
            then template (defaultCharset options) else "utf-8" in
  ∃ st', parseCharset options st = Ok (st', cs)
    ∧ headers (res st') !! "content-type" = Some (Some (";charset=" +:+ cs)).
Proof.
  intros Hset Hc Hsent Hct cs. unfold parseCharset, get_header.
  rewrite Hc, Hct. simpl. rewrite Hc. simpl. rewrite Hset, Hsent. simpl.
  eexists. split; [reflexivity|]. simpl. by rewrite lookup_insert_eq.
Qed.

Lemma parseCharset_sets_bare_charset_witness :
  ∃ st', parseCharset
           {| defaultCharset := Some "iso-8859-1"; setCharset := true;
              setJSON := false |}
           {| res := fresh_response; destination := []; endCalled := false;
              pendingChunks := []; charset := None; encoding := None;
              hasSetJSON := false |} = Ok (st', "iso-8859-1")
    ∧ headers (res st') !! "content-type"
      = Some (Some ";charset=iso-8859-1").
Proof.
  exact (parseCharset_sets_bare_charset
           {| defaultCharset := Some "iso-8859-1"; setCharset := true;
              setJSON := false |}
           {| res := fresh_response; destination := []; endCalled := false;
              pendingChunks := []; charset := None; encoding := None;
              hasSetJSON := false |}
           eq_refl eq_refl eq_refl eq_refl).
Defined.

End CharsetFacts.

(** ** The buffer encoder: late chunks *)

Section LateChunks.
Import JS Response BufferEncoder.
Variable options : BufferEncoderMiddlewareOptions.

Lemma resolve_encoding_locals st st' e :
  resolve_encoding options st = Ok (st', e) →
  destination st' = destination st ∧ endCalled st' = endCalled st
  ∧ pendingChunks st' = pendingChunks st ∧ hasSetJSON st' = hasSetJSON st
  ∧ headersSent (res st') = headersSent (res st)
  ∧ encoding st' = Some e.
Proof.
  unfold resolve_encoding. destruct (encoding st) as [e0|] eqn:Ee.
  - intros [= <- <-]. by repeat split.
  - destruct (parseCharset options st) as [[st1 cs]|] eqn:E; [|done].
    apply parseCharset_locals in E as (?&?&?&?&?&?).
    simpl. intros [= <- <-]. by repeat split.
Qed.

Lemma setJSONMediaType_locals st :
  destination (setJSONMediaType st) = destination st
  ∧ endCalled (setJSONMediaType st) = endCalled st
  ∧ pendingChunks (setJSONMediaType st) = pendingChunks st
  ∧ encoding (setJSONMediaType st) = encoding st
  ∧ headersSent (res (setJSONMediaType st)) = headersSent (res st).
Proof. unfold setJSONMediaType. by destruct (hasSetJSON st). Qed.

Lemma make_chunk_encodable any st st' chunk :
  encodable any = true →
  make_chunk options any st = Ok (st', chunk) →
  (∃ b, chunk = VBuffer b ∧ chunk_of any b)
  ∧ destination st' = destination st ∧ endCalled st' = endCalled st
  ∧ pendingChunks st' = pendingChunks st.
Proof.
  destruct any as [| | | s | b | json]; try done; intros _; simpl.
  - destruct (resolve_encoding options st) as [[st1 e]|] eqn:E; [|done].
    apply resolve_encoding_locals in E as (?&?&?&_).
    simpl. intros [= <- <-]. split; [|done]. eexists. split; [done|].
    by eexists.
  - intros [= <- <-]. split; [|done]. by eexists.
  - destruct (resolve_encoding options st) as [[st1 e]|] eqn:E; [|done].
    apply resolve_encoding_locals in E as (?&?&?&_).
    simpl. destruct json as [text|]; [|done].
    destruct (setJSONMediaType_locals st1) as (?&?&?&_).
    destruct (_ && _); intros [= <- <-];
      (split; [eexists; split; [done|by eexists]|]);
      repeat split; congruence.
Qed.

Lemma run_late_data anys : ∀ st st',
  endCalled st = true →
  forallb encodable anys = true →
  run options (Data <$> anys) st = Ok st' →
  ∃ bs, Forall2 chunk_of anys bs
    ∧ pendingChunks st' = (pendingChunks st ++ (VBuffer <$> bs))%list
    ∧ destination st' = destination st
    ∧ endCalled st' = true.
Proof.
  induction anys as [|any rest IH]; intros st st' Hend Hall; simpl.
  - intros [= <-]. exists []. rewrite app_nil_r. by repeat split.
  - simpl in Hall. apply andb_prop in Hall as [Hany Hrest].
    unfold on_data.
    destruct (make_chunk options any st) as [[st1 chunk]|] eqn:E; [|done].
    apply make_chunk_encodable in E as ((b & -> & Hb) & Hd & He & Hp); [|done].
    simpl. rewrite He, Hend. simpl. intros Hrun.
    apply IH in Hrun as (bs & Hbs & Hp' & Hd' & He'); [|simpl; congruence|done].
    simpl in Hp', Hd'. exists (b :: bs). split; [by constructor|].
    rewrite Hp', Hp, Hd', <- app_assoc. done.
Qed.

Lemma flush_buffers bs : ∀ dest,
  flush (VBuffer <$> bs) dest
  = ([], (dest ++ (CallWrite ∘ VBuffer <$> bs))%list).
Proof.
  induction bs as [|b bs IH]; intros dest; simpl.
  - by rewrite app_nil_r.
  - rewrite IH, <- app_assoc. done.
Qed.

Lemma run_app evs1 : ∀ evs2 st,
  run options (evs1 ++ evs2) st
  = let! st1 := run options evs1 st in run options evs2 st1.
Proof.
  induction evs1 as [|ev evs1 IH]; intros evs2 st; simpl; [done|].
  destruct (step options ev st); simpl; [apply IH|done].
Qed.

(** Late chunks that are buffers, strings or objects: they are queued, and
    on ['end'] written to the destination in arrival order, then [end()] is
    called on it. *)
Lemma late_encodable_chunks_flushed anys st st' :
  endCalled st = true →
  pendingChunks st = [] →
  forallb encodable anys = true →
  run options ((Data <$> anys) ++ [End]) st = Ok st' →
  ∃ bs, Forall2 chunk_of anys bs
    ∧ destination st'
      = (destination st ++ (CallWrite ∘ VBuffer <$> bs) ++ [CallEnd None])%list
    ∧ pendingChunks st' = [].
Proof.
  intros Hend Hp Hall. rewrite run_app.
  destruct (run options (Data <$> anys) st) as [st1|] eqn:E; [|done].
  apply run_late_data in E as (bs & Hbs & Hp1 & Hd1 & _); [|done..].
  simpl. intros [= <-]. exists bs. split; [done|].
  unfold on_end. rewrite Hp1, Hp. simpl. rewrite flush_buffers. simpl.
  rewrite Hd1, <- app_assoc. done.
Qed.

(** The example of the specification: [a], then the end is requested, then
    the late chunk [b], then ['end'].  The destination gets [a], [b] and
    [end()]. *)
Lemma late_string_chunk_is_flushed :
  ∃ st0 st' e, installed = Some st0
    ∧ e = charsetAsBufferEncoding
            (if truthy (defaultCharset options)
             then template (defaultCharset options) else "utf-8")
    ∧ run options
        [Data (VString "a"); EndRequested; Data (VString "b"); End] st0
      = Ok st'
    ∧ destination st'
      = [CallWrite (VBuffer (BufferFrom "a" e));
         CallWrite (VBuffer (BufferFrom "b" e)); CallEnd None].
Proof.
  destruct options as [dc sc sj]. cbn [defaultCharset].
  destruct (truthy dc) eqn:Hdc, sc;
    (eexists _, _, _; split; [reflexivity|]; split; [reflexivity|];
     simpl; unfold on_data, make_chunk, resolve_encoding, parseCharset;
     simpl; rewrite ?Hdc; simpl; repeat split; reflexivity).
Qed.

(** C1. Write [a], request the end, then deliver the late chunks [42] and
    [b], then ['end']: the number leaves [chunk] unassigned, [undefined] is
    queued before the buffer of [b], and the flush loop stops at it.  The
    destination gets [a] and [end()]; [b] stays in the queue and is never
    written. *)
Theorem late_chunk_after_number_is_dropped :
  ∃ st0 st' e, installed = Some st0
    ∧ e = charsetAsBufferEncoding
            (if truthy (defaultCharset options)
             then template (defaultCharset options) else "utf-8")
    ∧ run options
        [Data (VString "a"); EndRequested;
         Data (VNumber (Num 42)); Data (VString "b"); End] st0
      = Ok st'
    ∧ destination st' = [CallWrite (VBuffer (BufferFrom "a" e)); CallEnd None]
    ∧ pendingChunks st' = [VBuffer (BufferFrom "b" e)].
Proof.
  destruct options as [dc sc sj]. cbn [defaultCharset].
  destruct (truthy dc) eqn:Hdc, sc;
    (eexists _, _, _; split; [reflexivity|]; split; [reflexivity|];
     simpl; unfold on_data, make_chunk, resolve_encoding, parseCharset;
     simpl; rewrite ?Hdc; simpl; repeat split; reflexivity).
Qed.

End LateChunks.

(** ** The buffer encoder: the JSON media type *)

Import BufferEncoder.

Section JSONMediaType.
Import JS Response.
Variable options : BufferEncoderMiddlewareOptions.












End JSONMediaType.



(** ** CookieObject: serialise, then parse *)

Section CookieRoundTrip.
Context `{DateBuiltins}.
Import JS Cookie.

Lemma clean_spec s :
  clean s = true →
  includes ";" s = false ∧ includes "=" s = false ∧ trim s = s.
Proof.
  unfold clean. intros [[H1 H2]%andb_prop H3]%andb_prop.
  apply negb_true_iff in H1, H2. by apply String.eqb_eq in H3.
Qed.

Lemma toString_pieces c :
  toString c
  = (template (name c) +:+ "=" +:+ template (value c))
    +:+ concat_pieces (attribute_segments c).
Proof.
  unfold toString, concat_pieces, attribute_segments. cbn [foldr].
  rewrite !append_assoc, append_nil_r.
  assert (Hcong : ∀ a a' b b', a = a' → b = b' → a +:+ b = a' +:+ b')
    by (by intros; subst).
  do 3 (apply Hcong; [done|]).
  apply Hcong; [destruct (expires c); reflexivity|].
  apply Hcong; [destruct (maxAge c); reflexivity|].
  apply Hcong; [destruct (truthy (domain c)); reflexivity|].
  apply Hcong; [destruct (truthy (path c)); reflexivity|].
  apply Hcong; [destruct (secure c); reflexivity|].
  apply Hcong; [destruct (httpOnly c); reflexivity|].
  destruct (truthy (sameSite c)); reflexivity.
Qed.

Lemma split_concat_pieces os : ∀ first,
  includes ";" first = false →
  Forall (fun o => ∀ s, o = Some s → includes ";" s = false) os →
  split ";" (first +:+ concat_pieces os) = first :: omap id os.
Proof.
  induction os as [|o os IH]; intros first Hf Hos.
  - cbn. rewrite append_nil_r. by apply split_no_sep.
  - inversion Hos as [|? ? Ho Hos']; subst. destruct o as [s|].
    + change (concat_pieces (Some s :: os))
        with (String ";" (s +:+ concat_pieces os)).
      rewrite split_app_sep, (split_no_sep ";" first), IH by eauto. done.
    + change (concat_pieces (None :: os)) with (concat_pieces os).
      by apply IH.
Qed.

Lemma split_key_value key body :
  includes "=" key = false → includes "=" body = false →
  split "=" (key +:+ String "=" body) = [key; body].
Proof.
  intros Hk Hb. by rewrite split_app_sep, !split_no_sep.
Qed.

Lemma parse_attribute_name_value o n v :
  clean n = true → clean v = true →
  parse_attribute o (n +:+ "=" +:+ v) 0
  = Ok (set_opt_value (Some v) (set_opt_name (Some n) o)).
Proof.
  intros (_ & Hn & Tn)%clean_spec (_ & Hv & Tv)%clean_spec.
  unfold parse_attribute.
  change (n +:+ "=" +:+ v) with (n +:+ String "=" v).
  rewrite split_key_value by done. cbn. by rewrite Tn, Tv.
Qed.

Ltac attribute_with_value key body :=
  unfold parse_attribute;
  change (split "=" _) with (split "=" (key +:+ String "=" body));
  rewrite split_key_value by done; reflexivity.

Lemma parse_attribute_expires o x i :
  includes "=" x = false →
  parse_attribute o ("Expires=" +:+ x) (S i)
  = Ok (set_opt_expires (Some (newDate (Some (trim x)))) o).
Proof. intros. attribute_with_value "Expires" x. Qed.

Lemma parse_attribute_maxAge o x i :
  includes "=" x = false →
  parse_attribute o ("Max-Age=" +:+ x) (S i)
  = Ok (set_opt_maxAge (Some (parseInt (Some (trim x)))) o).
Proof. intros. attribute_with_value "Max-Age" x. Qed.

Lemma parse_attribute_domain o x i :
  includes "=" x = false →
  parse_attribute o ("Domain=" +:+ x) (S i)
  = Ok (set_opt_domain (Some (trim x)) o).
Proof. intros. attribute_with_value "Domain" x. Qed.

Lemma parse_attribute_path o x i :
  includes "=" x = false →
  parse_attribute o ("Path=" +:+ x) (S i) = Ok (set_opt_path (Some (trim x)) o).
Proof. intros. attribute_with_value "Path" x. Qed.

Lemma parse_attribute_sameSite o x i :
  includes "=" x = false →
  parse_attribute o ("SameSite=" +:+ x) (S i)
  = Ok (set_opt_sameSite (Some (trim x)) o).
Proof. intros. attribute_with_value "SameSite" x. Qed.

Lemma forEach_attribute_index attributes : ∀ o i j,
  forEach_attribute o attributes (S i) = forEach_attribute o attributes (S j).
Proof.
  induction attributes as [|a rest IH]; intros o i j; [done|].
  cbn [forEach_attribute].
  change (parse_attribute o a (S j)) with (parse_attribute o a (S i)).
  destruct (parse_attribute o a (S i)); [apply IH|done].
Qed.

(** One optional segment: its attribute is parsed when it is there. *)
Lemma forEach_attribute_optional o o' (seg : option string) os :
  match seg with
  | Some s => parse_attribute o s 1 = Ok o'
  | None => o' = o
  end →
  forEach_attribute o (omap id (seg :: os)) 1
  = forEach_attribute o' (omap id os) 1.
Proof.
  destruct seg as [s|]; cbn; [|by intros ->].
  intros ->. cbn. apply forEach_attribute_index.
Qed.

Lemma numberToString_clean n :
  includes ";" (numberToString n) = false
  ∧ includes "=" (numberToString n) = false
  ∧ trim (numberToString n) = numberToString n.
Proof.
  split; [|split].
  - apply includes_all_chars, numberToString_all_chars; try done.
    by apply digit_not_char.
  - apply includes_all_chars, numberToString_all_chars; try done.
    by apply digit_not_char.
  - apply trim_no_ws, numberToString_all_chars; try done.
    apply digit_not_ws.
Qed.

Lemma clean_optional_spec v :
  clean_optional v = true →
  if truthy v then ∃ s, v = Some s ∧ clean s = true else v = None.
Proof.
  destruct v as [[|c s]|]; cbn; try done.
  intros Hs. by eexists.
Qed.

(** C6, as the code has it.  For a cookie whose texts the wire form can
    carry ([name] and [value] strings, every text free of [;], of [=] and of
    white space at its ends, [domain], [path] and [sameSite] not empty when
    present, [maxAge] NaN or an exact integer), parsing what [toString]
    prints gives back [name], [value], [maxAge], [domain], [path], [secure],
    [httpOnly] and [sameSite] as they were, and for [expires] the date that
    [new Date] reads from its HTTP-date text. *)
Theorem parse_toString_round_trip c :
  wire_safe c = true →
  parse (toString c)
  = Ok {| name := name c; value := value c;
          expires := (fun d => newDate (Some (trim (toUTCString d))))
                       <$> expires c;
          maxAge := maxAge c; domain := domain c; path := path c;
          secure := secure c; httpOnly := httpOnly c;
          sameSite := sameSite c |}.
Proof.
  destruct c as [n v e m d p sec h ss]. unfold wire_safe.
  cbn [name value expires maxAge domain path secure httpOnly sameSite].
  intros [[[[[[Hn Hv]%andb_prop Hd]%andb_prop Hp]%andb_prop Hss]%andb_prop
            He]%andb_prop _]%andb_prop.
  destruct n as [n|]; [|done]. destruct v as [v|]; [|done]. cbn in Hn, Hv.
  apply clean_optional_spec in Hd, Hp, Hss.
  destruct (clean_spec _ Hn) as (Hn1 & _ & _).
  destruct (clean_spec _ Hv) as (Hv1 & _ & _).
  unfold parse. rewrite toString_pieces.
  cbn [name value template]. unfold attribute_segments.
  cbn [expires maxAge domain path secure httpOnly sameSite].
  rewrite split_concat_pieces.
  2: { rewrite !includes_app, Hn1, Hv1. done. }
  2: { repeat constructor; intros s.
       - destruct e as [x|]; [|done]. intros [= <-].
         apply andb_prop in He as [He1 _]. apply negb_true_iff in He1.
         rewrite includes_app, He1. done.
       - destruct m as [x|]; [|done]. intros [= <-].
         destruct (numberToString_clean x) as (Hx & _).
         by rewrite includes_app, Hx.
       - destruct (truthy d); [|done]. destruct Hd as (x & -> & Hx).
         intros [= <-]. apply clean_spec in Hx as (Hx & _).
         by rewrite includes_app, Hx.
       - destruct (truthy p); [|done]. destruct Hp as (x & -> & Hx).
         intros [= <-]. apply clean_spec in Hx as (Hx & _).
         by rewrite includes_app, Hx.
       - by destruct sec; intros [= <-].
       - by destruct h; intros [= <-].
       - destruct (truthy ss); [|done]. destruct Hss as (x & -> & Hx).
         intros [= <-]. apply clean_spec in Hx as (Hx & _).
         by rewrite includes_app, Hx. }
  cbn [forEach_attribute].
  rewrite parse_attribute_name_value by done. cbn [rbind].
  set (o0 := set_opt_value (Some v) (set_opt_name (Some n) empty_options)).
  rewrite (forEach_attribute_optional o0
             (set_opt_expires
                ((fun x => newDate (Some (trim (toUTCString x)))) <$> e) o0)).
  2: { destruct e as [x|]; [|done]. apply parse_attribute_expires.
       apply andb_prop in He as [_ He2]. by apply negb_true_iff in He2. }
  match goal with |- context [forEach_attribute ?o _ _] => set (o1 := o) end.
  rewrite (forEach_attribute_optional o1 (set_opt_maxAge m o1)).
  2: { destruct m as [x|]; [|done].
       destruct (numberToString_clean x) as (_ & Hx2 & Hx3).
       change (parse_attribute o1 ("Max-Age=" +:+ numberToString x) 1
               = Ok (set_opt_maxAge (Some x) o1)).
       rewrite parse_attribute_maxAge by done.
       by rewrite Hx3, parseInt_numberToString. }
  match goal with |- context [forEach_attribute ?o _ _] => set (o2 := o) end.
  rewrite (forEach_attribute_optional o2 (set_opt_domain d o2)).
  2: { destruct (truthy d); [|by subst d]. destruct Hd as (x & -> & Hx).
       apply clean_spec in Hx as (_ & Hx2 & Hx3). cbn [template].
       rewrite parse_attribute_domain by done. by rewrite Hx3. }
  match goal with |- context [forEach_attribute ?o _ _] => set (o3 := o) end.
  rewrite (forEach_attribute_optional o3 (set_opt_path p o3)).
  2: { destruct (truthy p); [|by subst p]. destruct Hp as (x & -> & Hx).
       apply clean_spec in Hx as (_ & Hx2 & Hx3). cbn [template].
       rewrite parse_attribute_path by done. by rewrite Hx3. }
  match goal with |- context [forEach_attribute ?o _ _] => set (o4 := o) end.
  rewrite (forEach_attribute_optional o4
             (set_opt_secure (if sec then Some true else None) o4)).
  2: { by destruct sec. }
  match goal with |- context [forEach_attribute ?o _ _] => set (o5 := o) end.
  rewrite (forEach_attribute_optional o5
             (set_opt_httpOnly (if h then Some true else None) o5)).
  2: { by destruct h. }
  match goal with |- context [forEach_attribute ?o _ _] => set (o6 := o) end.
  rewrite (forEach_attribute_optional o6 (set_opt_sameSite ss o6)).
  2: { destruct (truthy ss); [|by subst ss]. destruct Hss as (x & -> & Hx).
       apply clean_spec in Hx as (_ & Hx2 & Hx3). cbn [template].
       rewrite parse_attribute_sameSite by done. by rewrite Hx3. }
  cbn. unfold construct. cbn. by destruct sec, h.
Qed.

End CookieRoundTrip.

Lemma parse_toString_round_trip_witness :
  Cookie.toString session_cookie
  = "sid=abc123;Expires=Wed, 21 Oct 2015 07:28:00 GMT;Max-Age=3600;Domain=example.com;Path=/docs;Secure;SameSite=lax"
  ∧ Cookie.parse (Cookie.toString session_cookie)
    = Ok {| Cookie.name := Some "sid"; Cookie.value := Some "abc123";
            Cookie.expires := Some (UTCDate.At 1445412480000);
            Cookie.maxAge := Some (JS.Num 3600);
            Cookie.domain := Some "example.com"; Cookie.path := Some "/docs";
            Cookie.secure := true; Cookie.httpOnly := false;
            Cookie.sameSite := Some "lax" |}.
Proof.
  split; [reflexivity|].
  exact (parse_toString_round_trip session_cookie eq_refl).
Defined.

(** C6 as worded fails on a value that holds a [;]: the wire form ends the
    first segment there, and the parsed value is what stood before it. *)
Lemma round_trip_cuts_value_at_semicolon :
  let c := {| Cookie.name := Some "sid"; Cookie.value := Some "a;b";
              Cookie.expires := None; Cookie.maxAge := None;
              Cookie.domain := None; Cookie.path := None;
              Cookie.secure := false; Cookie.httpOnly := false;
              Cookie.sameSite := None |} in
  Cookie.parse (Cookie.toString c)
  = Ok {| Cookie.name := Some "sid"; Cookie.value := Some "a";
          Cookie.expires := None; Cookie.maxAge := None;
          Cookie.domain := None; Cookie.path := None;
          Cookie.secure := false; Cookie.httpOnly := false;
          Cookie.sameSite := None |}
  ∧ Some "a" ≠ Cookie.value c.
Proof. split; [reflexivity|discriminate]. Qed.

(** * Further properties *)

(** ** Strings: trimming *)

Section TrimFacts.
Import JS.

Lemma includes_trimStart c s :
  includes c s = false → includes c (trimStart s) = false.
Proof.
  induction s as [|d s IH]; [done|]. cbn.
  destruct (is_ws d); [|done].
  intros [_ Hs]%orb_false_elim. by apply IH.
Qed.

Lemma includes_trimEnd c s :
  includes c s = false → includes c (trimEnd s) = false.
Proof.
  induction s as [|d s IH]; [done|]. cbn.
  intros [Hd Hs]%orb_false_elim. specialize (IH Hs).
  destruct (trimEnd s) as [|e r]; cbn.
  - destruct (is_ws d); [done|]. cbn. by rewrite Hd.
  - cbn in IH. by rewrite Hd, IH.
Qed.

Lemma includes_trim c s : includes c s = false → includes c (trim s) = false.
Proof. intros. by apply includes_trimEnd, includes_trimStart. Qed.

Lemma trimEnd_idem s : trimEnd (trimEnd s) = trimEnd s.
Proof.
  induction s as [|d s IH]; [done|]. cbn.
  destruct (trimEnd s) as [|e r] eqn:E.
  - destruct (is_ws d) eqn:Hd; [done|]. cbn. by rewrite Hd.
  - cbn [trimEnd] in *. rewrite IH. done.
Qed.

Lemma trimStart_head s :
  trimStart s = EmptyString
  ∨ ∃ d r, trimStart s = String d r ∧ is_ws d = false.
Proof.
  induction s as [|d s IH]; [by left|]. cbn.
  destruct (is_ws d) eqn:Hd; [done|]. right. by eexists _, _.
Qed.

Lemma trimStart_trimEnd d r :
  is_ws d = false → trimStart (trimEnd (String d r)) = trimEnd (String d r).
Proof.
  intros Hd. cbn [trimEnd].
  destruct (trimEnd r); rewrite ?Hd; cbn; by rewrite Hd.
Qed.

Lemma trim_idem s : trim (trim s) = trim s.
Proof.
  unfold trim. destruct (trimStart_head s) as [->|(d & r & -> & Hd)]; [done|].
  by rewrite trimStart_trimEnd, trimEnd_idem.
Qed.

Lemma split_pieces_includes c sep s :
  includes c s = false →
  Forall (fun piece => includes c piece = false) (split sep s).
Proof.
  induction s as [|d s IH]; cbn; [by repeat constructor|].
  intros [Hd Hs]%orb_false_elim. specialize (IH Hs).
  destruct (Ascii.eqb d sep); [by constructor|].
  destruct (split_nonempty sep s) as (h & t & E). rewrite E in *.
  inversion IH; subst. constructor; [|done]. cbn. by rewrite Hd.
Qed.

(** A trimmed piece of a segment is clean. *)
Lemma clean_trimmed_piece attribute parts i p :
  includes ";" attribute = false →
  parts = split "=" attribute →
  parts !! i = Some p →
  clean (trim p) = true.
Proof.
  intros Hs -> Hp. unfold clean.
  pose proof (split_pieces_includes ";" "=" attribute Hs) as H1.
  pose proof (split_pieces_no_sep "=" attribute) as H2.
  rewrite Forall_lookup in H1, H2.
  rewrite (includes_trim _ _ (H1 _ _ Hp)), (includes_trim _ _ (H2 _ _ Hp)).
  cbn. rewrite trim_idem. by apply String.eqb_eq.
Qed.

End TrimFacts.

(** ** CookieObject: what [parse] reads, and [toJSON] *)

Section CookieAttributes.
Context `{DateBuiltins}.
Import JS Cookie.

(** After the first segment [parse_attribute] never raises, and what it
    does is decided by the key and the value of the segment. *)
Lemma parse_attribute_later o a i :
  parse_attribute o a (S i)
  = Ok (let k := attribute_key a in
        let v := attribute_value a in
        if String.eqb k "expires" then set_opt_expires (Some (newDate v)) o
        else if String.eqb k "max-age" then
          set_opt_maxAge (Some (parseInt v)) o
        else if String.eqb k "domain" then set_opt_domain v o
        else if String.eqb k "path" then set_opt_path v o
        else if String.eqb k "secure" then set_opt_secure (Some true) o
        else if String.eqb k "httponly" then set_opt_httpOnly (Some true) o
        else if String.eqb k "samesite" then set_opt_sameSite v o
        else o).
Proof.
  unfold parse_attribute, attribute_key, attribute_value.
  destruct (split_nonempty "=" a) as (h & [|v t] & ->); cbn;
  repeat match goal with
         | |- context [String.eqb ?x ?y] => destruct (String.eqb x y)
         end; done.
Qed.

Ltac case_key k lit :=
  let E := fresh "E" in
  destruct (String.eqb k lit) eqn:E;
  [apply String.eqb_eq in E; rewrite ?E in *|].

Lemma forEach_attribute_fields attributes : ∀ o i,
  ∃ o', forEach_attribute o attributes (S i) = Ok o'
    ∧ opt_domain o'
      = from_option id (opt_domain o) (last_attribute "domain" attributes)
    ∧ opt_path o'
      = from_option id (opt_path o) (last_attribute "path" attributes)
    ∧ opt_sameSite o'
      = from_option id (opt_sameSite o)
          (last_attribute "samesite" attributes)
    ∧ opt_maxAge o'
      = from_option (fun v => Some (parseInt v)) (opt_maxAge o)
          (last_attribute "max-age" attributes)
    ∧ opt_expires o'
      = from_option (fun v => Some (newDate v)) (opt_expires o)
          (last_attribute "expires" attributes).
Proof.
  induction attributes as [|a rest IH]; intros o i.
  - exists o. by repeat split.
  - cbn [forEach_attribute]. rewrite parse_attribute_later. cbn [rbind].
    match goal with
    | |- context [forEach_attribute ?o1 rest ?j] =>
        destruct (IH o1 i) as (o' & E & Hd & Hp & Hs & Hm & He)
    end.
    exists o'. rewrite (forEach_attribute_index rest _ (S i) i), E.
    split; [done|]. rewrite Hd, Hp, Hs, Hm, He. cbn [last_attribute].
    set (k := attribute_key a) in *.
    destruct (last_attribute "domain" rest), (last_attribute "path" rest),
      (last_attribute "samesite" rest), (last_attribute "max-age" rest),
      (last_attribute "expires" rest); cbn;
      case_key k "expires"; cbn; try done;
      case_key k "max-age"; cbn; try done;
      case_key k "domain"; cbn; try done;
      case_key k "path"; cbn; try done;
      case_key k "secure"; cbn; try done;
      case_key k "httponly"; cbn; try done;
      case_key k "samesite"; cbn; done.
Qed.

(** For every cookie string, [domain], [path] and [sameSite] of the parsed
    cookie are the value of the last attribute segment with that key
    ([undefined] when that segment has no [=], or when there is none), and
    [maxAge] and [expires] are [parseInt] and [new Date] of the value of
    the last [max-age] and [expires] segment. *)
Theorem parse_last_attribute_wins (cookieString : string) :
  let attributes := tail (split ";" cookieString) in
  ∃ c, parse cookieString = Ok c
    ∧ domain c = from_option id None (last_attribute "domain" attributes)
    ∧ path c = from_option id None (last_attribute "path" attributes)
    ∧ sameSite c
      = from_option id None (last_attribute "samesite" attributes)
    ∧ maxAge c = parseInt <$> last_attribute "max-age" attributes
    ∧ expires c = newDate <$> last_attribute "expires" attributes.
Proof.
  destruct (split_nonempty ";" cookieString) as (first & rest & Hs).
  unfold parse. rewrite Hs. cbn [tail forEach_attribute].
  unfold parse_attribute at 1. cbn [Nat.eqb rbind].
  match goal with
  | |- context [forEach_attribute ?o rest 1] =>
      destruct (forEach_attribute_fields rest o 0)
        as (o' & -> & Hd & Hp & Hss & Hm & He)
  end.
  exists (construct o'). cbn [rbind]. split; [done|].
  unfold construct; cbn. rewrite Hd, Hp, Hss, Hm, He. cbn.
  repeat split; by destruct (last_attribute _ rest).
Qed.

Lemma forEach_attribute_app l1 : ∀ l2 o i,
  forEach_attribute o (l1 ++ l2) i
  = let! o1 := forEach_attribute o l1 i in
    forEach_attribute o1 l2 (i + length l1).
Proof.
  induction l1 as [|a l1 IH]; intros l2 o i.
  - cbn. by rewrite Nat.add_0_r.
  - cbn [app forEach_attribute length].
    destruct (parse_attribute o a i); cbn [rbind]; [|done].
    rewrite IH. by rewrite Nat.add_succ_comm.
Qed.

(** A segment with a key [parse] does not know changes nothing: parsing a
    cookie string with such a segment appended gives what parsing the
    string alone gives. *)
Theorem parse_ignores_unknown_attribute (cookieString segment : string) :
  includes ";" segment = false →
  bool_decide (attribute_key segment ∈ known_keys) = false →
  parse (cookieString +:+ String ";" segment) = parse cookieString.
Proof.
  intros Hseg Hk%bool_decide_eq_false. unfold parse.
  rewrite split_app_sep, (split_no_sep ";" segment Hseg).
  rewrite forEach_attribute_app.
  destruct (split_nonempty ";" cookieString) as (first & rest & ->).
  destruct (forEach_attribute empty_options (first :: rest) 0) as [o|];
    [|done].
  cbn [rbind length forEach_attribute Nat.add].
  rewrite parse_attribute_later. cbn [rbind].
  unfold known_keys in Hk. rewrite !not_elem_of_cons in Hk.
  destruct Hk as (K1 & K2 & K3 & K4 & K5 & K6 & K7 & _).
  cbn zeta.
  repeat match goal with
         | |- context [String.eqb ?x ?y] =>
             destruct (String.eqb_spec x y); [done|]
         end.
  done.
Qed.

Lemma attribute_value_clean a :
  includes ";" a = false → clean_or_absent (attribute_value a) = true.
Proof.
  intros Ha. unfold attribute_value.
  destruct (split "=" a !! 1%nat) as [p|] eqn:E; [|done]. cbn.
  by eapply clean_trimmed_piece.
Qed.

Lemma parse_attribute_clean o a index o' :
  includes ";" a = false →
  clean_texts o = true →
  parse_attribute o a index = Ok o' →
  clean_texts o' = true.
Proof.
  intros Ha Ho. pose proof (attribute_value_clean a Ha) as Hv.
  unfold clean_texts in Ho.
  apply andb_prop in Ho as [[[[H1 H2]%andb_prop H3]%andb_prop H4]%andb_prop H5].
  destruct index as [|i].
  - unfold parse_attribute. cbn [Nat.eqb].
    destruct (split_nonempty "=" a) as (h & t & E). rewrite E.
    intros [= <-]. unfold clean_texts. cbn.
    rewrite H3, H4, H5, !andb_true_r.
    assert (clean (trim h) = true) as ->.
    { apply (clean_trimmed_piece a (split "=" a) 0%nat);
        [done|done|by rewrite E]. }
    cbn. destruct t as [|v t]; [done|]. cbn.
    apply (clean_trimmed_piece a (split "=" a) 1%nat);
      [done|done|by rewrite E].
  - rewrite parse_attribute_later. intros [= <-]. cbn zeta.
    repeat match goal with
           | |- context [String.eqb ?x ?y] => destruct (String.eqb x y)
           end; unfold clean_texts; cbn; by rewrite ?H1, ?H2, ?H3, ?H4, ?H5, ?Hv.
Qed.

Lemma forEach_attribute_clean attributes : ∀ o index o',
  Forall (fun a => includes ";" a = false) attributes →
  clean_texts o = true →
  forEach_attribute o attributes index = Ok o' →
  clean_texts o' = true.
Proof.
  induction attributes as [|a rest IH]; intros o index o' Hall Ho.
  - by intros [= <-].
  - inversion Hall; subst. cbn [forEach_attribute].
    destruct (parse_attribute o a index) as [o1|] eqn:E; [|done].
    cbn [rbind]. apply IH; [done|]. by eapply parse_attribute_clean.
Qed.

(** Whatever the cookie string, the texts of the parsed cookie hold no
    [;], no [=] and no white space at their ends: the name always, and
    [value], [domain], [path] and [sameSite] when they are there. *)
Theorem parse_texts_clean (cookieString : string) :
  ∃ c, parse cookieString = Ok c
    ∧ clean_required (name c) = true
    ∧ clean_or_absent (value c) = true
    ∧ clean_or_absent (domain c) = true
    ∧ clean_or_absent (path c) = true
    ∧ clean_or_absent (sameSite c) = true.
Proof.
  destruct (parse_name_value cookieString)
    as (c & first & rest & Hc & Hs & Hn & _).
  exists c. split; [done|].
  revert Hc. unfold parse.
  destruct (forEach_attribute empty_options (split ";" cookieString) 0)
    as [o|] eqn:E; [|done].
  apply forEach_attribute_clean in E;
    [|apply split_pieces_no_sep|done].
  cbn [rbind]. intros [= <-].
  unfold clean_texts in E.
  apply andb_prop in E as [[[[H1 H2]%andb_prop H3]%andb_prop H4]%andb_prop H5].
  unfold construct in *; cbn in *.
  split; [|done].
  destruct (split_nonempty "=" first) as (h & t & Eh).
  rewrite Eh in Hn. cbn in Hn. rewrite Hn in *. done.
Qed.

(** [new CookieObject(c.toJSON())] is [c] again: the record [toJSON]
    returns holds every field, and the two flags as the booleans they
    are. *)
Theorem constructor_toJSON (c : CookieObject) :
  new_CookieObject (inl (toJSON c)) = Ok c.
Proof. by destruct c. Qed.

(** What [toString] prints for a cookie the wire form can carry: the
    segment [name=value], then one segment for each attribute that is set,
    in the order Expires, Max-Age, Domain, Path, Secure, HttpOnly,
    SameSite, and nothing else. *)
Theorem toString_segments (c : CookieObject) :
  wire_safe c = true →
  split ";" (toString c)
  = (template (name c) +:+ "=" +:+ template (value c))
    :: omap id (attribute_segments c).
Proof.
  destruct c as [n v e m d p sec h ss]. unfold wire_safe.
  cbn [name value expires maxAge domain path secure httpOnly sameSite].
  intros [[[[[[Hn Hv]%andb_prop Hd]%andb_prop Hp]%andb_prop Hss]%andb_prop
            He]%andb_prop _]%andb_prop.
  destruct n as [n|]; [|done]. destruct v as [v|]; [|done]. cbn in Hn, Hv.
  apply clean_optional_spec in Hd, Hp, Hss.
  destruct (clean_spec _ Hn) as (Hn1 & _ & _).
  destruct (clean_spec _ Hv) as (Hv1 & _ & _).
  rewrite toString_pieces.
  cbn [name value template]. unfold attribute_segments.
  cbn [expires maxAge domain path secure httpOnly sameSite].
  apply split_concat_pieces.
  { rewrite !includes_app, Hn1, Hv1. done. }
  repeat constructor; intros s.
  - destruct e as [x|]; [|done]. intros [= <-].
    apply andb_prop in He as [He1 _]. apply negb_true_iff in He1.
    rewrite includes_app, He1. done.
  - destruct m as [x|]; [|done]. intros [= <-].
    destruct (numberToString_clean x) as (Hx & _).
    by rewrite includes_app, Hx.
  - destruct (truthy d); [|done]. destruct Hd as (x & -> & Hx).
    intros [= <-]. apply clean_spec in Hx as (Hx & _).
    by rewrite includes_app, Hx.
  - destruct (truthy p); [|done]. destruct Hp as (x & -> & Hx).
    intros [= <-]. apply clean_spec in Hx as (Hx & _).
    by rewrite includes_app, Hx.
  - by destruct sec; intros [= <-].
  - by destruct h; intros [= <-].
  - destruct (truthy ss); [|done]. destruct Hss as (x & -> & Hx).
    intros [= <-]. apply clean_spec in Hx as (Hx & _).
    by rewrite includes_app, Hx.
Qed.

End CookieAttributes.

Lemma parse_ignores_unknown_attribute_witness :
  Cookie.parse ("sid=1;Path=/" +:+ String ";" "Priority=High")
  = Cookie.parse "sid=1;Path=/".
Proof.
  exact (parse_ignores_unknown_attribute "sid=1;Path=/" "Priority=High"
           eq_refl eq_refl).
Defined.

Lemma toString_segments_witness :
  JS.split ";" (Cookie.toString session_cookie)
  = ["sid=abc123"; "Expires=Wed, 21 Oct 2015 07:28:00 GMT"; "Max-Age=3600";
     "Domain=example.com"; "Path=/docs"; "Secure"; "SameSite=lax"].
Proof. exact (toString_segments session_cookie eq_refl). Defined.

(** ** executeCORSMiddleware: the other headers *)

Section CORSHeaders.
Import JS Response CORS.

(** A request without an Origin header: the middleware returns [continue]
    and the response is the one it was given. *)
Theorem not_cors_untouched req res options :
  Request.headers req !! "origin" = None →
  executeCORSMiddleware req res options = (res, MwContinue).
Proof. intros Ho. unfold executeCORSMiddleware. by rewrite Ho. Qed.

Lemma not_cors_untouched_witness :
  executeCORSMiddleware
    {| Request.method := "OPTIONS";
       Request.headers := {[ "host" := "a.example" ]} |}
    fresh_response
    {| allowOrigin := Some [OriginString "*"]; allowCredentials := true;
       allowMethods := Some ["GET"]; allowHeaders := None;
       maxAge := Some (Num 60); exposeHeaders := Some ["x-a"] |}
  = (fresh_response, MwContinue).
Proof.
  exact (not_cors_untouched
           {| Request.method := "OPTIONS";
              Request.headers := {[ "host" := "a.example" ]} |}
           fresh_response
           {| allowOrigin := Some [OriginString "*"];
              allowCredentials := true; allowMethods := Some ["GET"];
              allowHeaders := None; maxAge := Some (Num 60);
              exposeHeaders := Some ["x-a"] |}
           eq_refl).
Defined.

Lemma origin_stage_effect reqOrigin res options :
  origin_stage reqOrigin res options
  = match origin_effect reqOrigin options with
    | Some v => set_header allow_origin_key (Some v) res
    | None => res
    end.
Proof.
  unfold origin_stage, origin_effect.
  destruct (allowOrigin options) as [origins|]; [|done].
  rewrite allowOrigin_some_spec. by destruct (find _ origins).
Qed.



(** What the middleware is on a request with an Origin header and a method
    other than OPTIONS: three stages, each writing one header or nothing. *)
Lemma simple_cors_stages req res options reqOrigin :
  Request.method req ≠ "OPTIONS" →
  Request.headers req !! "origin" = Some reqOrigin →
  executeCORSMiddleware req res options
  = (let r1 := match origin_effect reqOrigin options with
               | Some v => set_header allow_origin_key (Some v) res
               | None => res
               end in
     let r2 := if allowCredentials options
               then set_header "access-control-allow-credentials"
                      (Some "true") r1
               else r1 in
     match exposeHeaders options with
     | Some hs => set_header "access-control-expose-headers"
                    (Some (join "," hs)) r2
     | None => r2
     end, MwContinue).
Proof.
  intros Hm Ho. unfold executeCORSMiddleware. rewrite Ho.
  destruct (String.eqb_spec (Request.method req) "OPTIONS") as [|_]; [done|].
  fold allow_origin_key. fold (origin_stage reqOrigin res options).
  by rewrite origin_stage_effect.
Qed.

(** A request with an Origin header and a method other than OPTIONS:
    allow-credentials is [true] when configured and otherwise as it was;
    expose-headers is the configured list joined by commas and otherwise as
    it was. *)
Theorem simple_cors_headers req res options reqOrigin :
  Request.method req ≠ "OPTIONS" →
  Request.headers req !! "origin" = Some reqOrigin →
  let after := (executeCORSMiddleware req res options).1 in
  headers after !! "access-control-allow-credentials"
  = (if allowCredentials options then Some (Some "true")
     else headers res !! "access-control-allow-credentials")
  ∧ headers after !! "access-control-expose-headers"
    = (match exposeHeaders options with
       | Some hs => Some (Some (join "," hs))
       | None => headers res !! "access-control-expose-headers"
       end).
Proof.
  intros Hm Ho after. subst after.
  rewrite (simple_cors_stages req res options reqOrigin Hm Ho).
  destruct (origin_effect reqOrigin options), (allowCredentials options),
    (exposeHeaders options); cbn;
    rewrite ?lookup_insert_eq; rewrite ?lookup_insert_ne by done;
    rewrite ?lookup_insert_eq; rewrite ?lookup_insert_ne by done;
    done.
Qed.

Lemma simple_cors_headers_witness :
  let after := (executeCORSMiddleware
                  (cors_request "GET" "https://a.example") fresh_response
                  {| allowOrigin := None; allowCredentials := true;
                     allowMethods := None; allowHeaders := None;
                     maxAge := None;
                     exposeHeaders := Some ["x-a"; "x-b"] |}).1 in
  headers after !! "access-control-allow-credentials" = Some (Some "true")
  ∧ headers after !! "access-control-expose-headers" = Some (Some "x-a,x-b").
Proof.
  intros after.
  exact (simple_cors_headers (cors_request "GET" "https://a.example")
           fresh_response
           {| allowOrigin := None; allowCredentials := true;
              allowMethods := None; allowHeaders := None; maxAge := None;
              exposeHeaders := Some ["x-a"; "x-b"] |}
           "https://a.example" ltac:(discriminate) eq_refl).
Defined.

Lemma response_eq (r1 r2 : Response) :
  status r1 = status r2 → headersSent r1 = headersSent r2 →
  stream r1 = stream r2 →
  (∀ k, headers r1 !! k = headers r2 !! k) →
  r1 = r2.
Proof.
  destruct r1, r2; cbn. intros -> -> -> Hh. f_equal. by apply map_eq.
Qed.

(** With no allow-list, or one that holds strings only, running the
    middleware a second time with the same options on a request with an
    Origin header and a method other than OPTIONS changes nothing more:
    the response after two runs is the response after one.  (A [RegExp]
    entry is left out: one with the [g] or [y] flag keeps a position
    between the runs.) *)
Theorem simple_cors_idempotent req res options reqOrigin :
  origin_strings_only options = true →
  Request.method req ≠ "OPTIONS" →
  Request.headers req !! "origin" = Some reqOrigin →
  executeCORSMiddleware req (executeCORSMiddleware req res options).1 options
  = executeCORSMiddleware req res options.
Proof.
  intros _ Hm Ho.
  rewrite !(simple_cors_stages req _ options reqOrigin Hm Ho). cbn [fst].
  f_equal.
  destruct (origin_effect reqOrigin options), (allowCredentials options),
    (exposeHeaders options); cbn zeta; try done;
    (apply response_eq; [done..|]; intros k; cbn;
     repeat (rewrite lookup_insert; case_decide; subst; try done)).
Qed.

Lemma simple_cors_idempotent_witness :
  let req := cors_request "GET" "https://a.example" in
  let options := {| allowOrigin := Some [OriginString "https://A.example"];
                    allowCredentials := true; allowMethods := None;
                    allowHeaders := None; maxAge := None;
                    exposeHeaders := Some ["x-a"] |} in
  executeCORSMiddleware req
    (executeCORSMiddleware req fresh_response options).1 options
  = executeCORSMiddleware req fresh_response options.
Proof.
  intros req options.
  exact (simple_cors_idempotent req fresh_response options
           "https://a.example" eq_refl ltac:(discriminate) eq_refl).
Defined.

End CORSHeaders.

(** ** The buffer encoder: installing, relaying, ending *)

Section EncoderRelay.
Import JS Response.
Variable options : BufferEncoderMiddlewareOptions.

(** The middleware always returns [continue].  On a HEAD request the
    response is left as it is and no listener is installed.  Otherwise the
    status, the headers and the sent-latch of the response stay, and the
    closure starts with the old front stream as its destination, nothing
    queued, no end requested and no charset or encoding resolved. *)
Theorem middleware_installs req res0 :
  let '(res1, closure, signal) := executeBufferEncoderMiddleware req res0 in
  signal = MwContinue
  ∧ (Request.method req = "HEAD" → res1 = res0 ∧ closure = None)
  ∧ (Request.method req ≠ "HEAD" →
     status res1 = status res0 ∧ headers res1 = headers res0
     ∧ headersSent res1 = headersSent res0
     ∧ ∃ st, closure = Some st
         ∧ res st = res1 ∧ destination st = stream res0
         ∧ pendingChunks st = [] ∧ endCalled st = false
         ∧ charset st = None ∧ encoding st = None ∧ hasSetJSON st = false).
Proof.
  unfold executeBufferEncoderMiddleware.
  destruct (String.eqb_spec (Request.method req) "HEAD") as [E|E].
  - split; [done|]. split; [done|]. by intros [].
  - split; [done|]. split; [done|]. intros _. repeat split.
    eexists. by repeat split.
Qed.

(** Byte chunks before the end is requested: whatever the response headers
    are, the run does not raise, each [Buffer] is written to the
    destination as it came and in arrival order, and nothing else of the
    closure or of the response changes. *)
Theorem buffers_relayed_in_order (bs : list Buffer) (st : State) :
  endCalled st = false →
  run options (Data ∘ VBuffer <$> bs) st
  = Ok (set_destination
          (destination st ++ (CallWrite ∘ VBuffer <$> bs)) st).
Proof.
  revert st. induction bs as [|b bs IH]; intros st Hend.
  - cbn. rewrite app_nil_r. by destruct st.
  - cbn [fmap list_fmap run step compose]. unfold on_data. cbn.
    rewrite Hend. cbn. rewrite IH by done. cbn.
    by rewrite <- app_assoc.
Qed.

(** Chunks that are buffers, strings or objects, before the end is
    requested: when the run does not raise, the destination has been
    written the buffer made of each chunk, in arrival order, nothing has
    been queued and [end] has not been called on it. *)
Theorem early_chunks_written_in_order anys : ∀ st st',
  endCalled st = false →
  forallb encodable anys = true →
  run options (Data <$> anys) st = Ok st' →
  ∃ bs, Forall2 chunk_of anys bs
    ∧ destination st' = (destination st ++ (CallWrite ∘ VBuffer <$> bs))%list
    ∧ pendingChunks st' = pendingChunks st
    ∧ endCalled st' = false.
Proof.
  induction anys as [|any rest IH]; intros st st' Hend Hall; simpl.
  - intros [= <-]. exists []. rewrite app_nil_r. by repeat split.
  - simpl in Hall. apply andb_prop in Hall as [Hany Hrest].
    unfold on_data.
    destruct (make_chunk options any st) as [[st1 chunk]|] eqn:E; [|done].
    apply make_chunk_encodable in E as ((b & -> & Hb) & Hd & He & Hp); [|done].
    simpl. rewrite He, Hend. simpl. intros Hrun.
    apply IH in Hrun as (bs & Hbs & Hd' & Hp' & He'); [|simpl; congruence|done].
    simpl in Hp', Hd'. exists (b :: bs). split; [by constructor|].
    rewrite Hd', Hp', Hd, Hp, <- app_assoc. done.
Qed.

End EncoderRelay.

Lemma buffers_relayed_in_order_witness :
  run default_options
    (Data ∘ VBuffer <$> [Bytes [Byte.x01]; Bytes [Byte.x02; Byte.x03]])
    (state_with_content_type "text/plain;charset")
  = Ok (set_destination
          [CallWrite (VBuffer (Bytes [Byte.x01]));
           CallWrite (VBuffer (Bytes [Byte.x02; Byte.x03]))]
          (state_with_content_type "text/plain;charset")).
Proof.
  exact (buffers_relayed_in_order default_options
           [Bytes [Byte.x01]; Bytes [Byte.x02; Byte.x03]]
           (state_with_content_type "text/plain;charset") eq_refl).
Defined.


Section EncoderInvariants.
Import JS Response.
Variable options : BufferEncoderMiddlewareOptions.

Lemma count_ends_write calls chunk :
  count_ends (calls ++ [CallWrite chunk]) = count_ends calls.
Proof.
  unfold count_ends. rewrite List.filter_app, length_app. cbn. lia.
Qed.

Lemma count_ends_end calls chunk :
  count_ends (calls ++ [CallEnd chunk]) = S (count_ends calls).
Proof.
  unfold count_ends. rewrite List.filter_app, length_app. cbn. lia.
Qed.

Lemma flush_count_ends pending : ∀ dest,
  count_ends (flush pending dest).2 = count_ends dest.
Proof.
  induction pending as [|chunk rest IH]; intros dest; cbn; [done|].
  destruct (Value_truthy chunk); [|done].
  by rewrite IH, count_ends_write.
Qed.

Lemma make_chunk_locals any st st' chunk :
  make_chunk options any st = Ok (st', chunk) →
  destination st' = destination st ∧ endCalled st' = endCalled st
  ∧ pendingChunks st' = pendingChunks st
  ∧ headersSent (res st') = headersSent (res st).
Proof.
  destruct any as [| | | s | b | json]; simpl;
    try (by intros [= <- _]).
  - destruct (resolve_encoding options st) as [[st1 e]|] eqn:E; [|done].
    apply resolve_encoding_locals in E as (?&?&?&?&?&_).
    simpl. by intros [= <- _].
  - destruct (resolve_encoding options st) as [[st1 e]|] eqn:E; [|done].
    apply resolve_encoding_locals in E as (?&?&?&?&?&_).
    simpl. destruct json as [text|]; [|done].
    destruct (setJSONMediaType_locals st1) as (?&?&?&_&?).
    destruct (_ && _); intros [= <- _]; repeat split; congruence.
Qed.

Lemma step_count_ends ev st st' :
  step options ev st = Ok st' →
  count_ends (destination st')
  = (count_ends (destination st) + count_end_events [ev])%nat.
Proof.
  destruct ev as [|any| |f]; simpl.
  - intros [= <-]. unfold count_end_events. simpl. lia.
  - unfold on_data.
    destruct (make_chunk options any st) as [[st1 chunk]|] eqn:E; [|done].
    apply make_chunk_locals in E as (Hd & _). simpl.
    destruct (endCalled st1); intros [= <-]; simpl;
      rewrite ?count_ends_write, Hd; unfold count_end_events; simpl; lia.
  - intros [= <-]. unfold on_end.
    pose proof (flush_count_ends (pendingChunks st) (destination st)) as Hf.
    destruct (flush _ _) as [pending dest]. simpl in *.
    rewrite count_ends_end, Hf. unfold count_end_events. simpl. lia.
  - intros [= <-]. simpl. unfold count_end_events. simpl. lia.
Qed.

(** In every run that does not raise, [end] is called on the destination
    once for each ['end'] event of the front stream and at no other time:
    no ['data'] event, no request to end and no flush calls it. *)
Theorem destination_ended_once_per_end evs : ∀ st st',
  run options evs st = Ok st' →
  count_ends (destination st')
  = (count_ends (destination st) + count_end_events evs)%nat.
Proof.
  induction evs as [|ev rest IH]; intros st st'; simpl.
  - intros [= <-]. unfold count_end_events. simpl. lia.
  - destruct (step options ev st) as [st1|] eqn:E; [|done]. simpl.
    intros Hrun. apply IH in Hrun. apply step_count_ends in E.
    rewrite Hrun, E. unfold count_end_events. simpl.
    destruct ev; simpl; lia.
Qed.

Lemma parseCharset_sent st st' cs :
  headersSent (res st) = true →
  parseCharset options st = Ok (st', cs) → res st' = res st.
Proof.
  intros Hsent. unfold parseCharset.
  destruct (truthy (charset st)); [by intros [= <- _]|].
  set (ct := get_header "content-type" (res st)).
  destruct (truthy ct).
  - destruct (charset_some st _) as [st1|] eqn:E; [|done].
    apply charset_some_locals in E as [(_&_&_&_&_&Hs) Hr].
    simpl. rewrite Hs, Hsent, andb_false_r.
    destruct (negb (truthy (charset st1))); by intros [= <- _].
  - simpl. rewrite Hsent, andb_false_r.
    destruct (negb (truthy (charset st))); by intros [= <- _].
Qed.

Lemma resolve_encoding_sent st st' e :
  headersSent (res st) = true →
  resolve_encoding options st = Ok (st', e) → res st' = res st.
Proof.
  intros Hsent. unfold resolve_encoding.
  destruct (encoding st); [by intros [= <- _]|].
  destruct (parseCharset options st) as [[st2 cs]|] eqn:E; [|done].
  apply parseCharset_sent in E; [|done]. simpl. by intros [= <- _].
Qed.

Lemma make_chunk_sent any st st' chunk :
  headersSent (res st) = true →
  make_chunk options any st = Ok (st', chunk) → res st' = res st.
Proof.
  intros Hsent. destruct any as [| | | s | b | json]; simpl;
    try (by intros [= <- _]).
  - destruct (resolve_encoding options st) as [[st2 e]|] eqn:E; [|done].
    apply resolve_encoding_sent in E; [|done]. simpl. by intros [= <- _].
  - destruct (resolve_encoding options st) as [[st2 e]|] eqn:E; [|done].
    apply resolve_encoding_sent in E; [|done]. simpl. destruct json; [|done].
    rewrite E, Hsent, andb_false_r. by intros [= <- _].
Qed.

Lemma step_sent ev st st' :
  headersSent (res st) = true → from_stream ev = true →
  step options ev st = Ok st' → res st' = res st.
Proof.
  intros Hsent Hev. destruct ev as [|any| |f]; simpl; try done.
  - by intros [= <-].
  - unfold on_data.
    destruct (make_chunk options any st) as [[st1 chunk]|] eqn:E; [|done].
    apply make_chunk_sent in E; [|done]. simpl.
    destruct (endCalled st1); by intros [= <-].
  - intros [= <-]. unfold on_end. by destruct (flush _ _).
Qed.

(** Once the headers are sent, no event of the front stream makes the
    closure change the response: neither the charset written back nor the
    JSON media type is applied, in any run that does not raise. *)
Theorem sent_headers_untouched evs : ∀ st st',
  headersSent (res st) = true →
  forallb from_stream evs = true →
  run options evs st = Ok st' →
  res st' = res st.
Proof.
  induction evs as [|ev rest IH]; intros st st' Hsent Hall; simpl.
  - by intros [= <-].
  - simpl in Hall. apply andb_prop in Hall as [Hev Hrest].
    destruct (step options ev st) as [st1|] eqn:E; [|done]. simpl.
    apply step_sent in E; [|done..]. intros Hrun.
    apply IH in Hrun; [congruence|by rewrite E|done].
Qed.

Lemma make_chunk_encoding any st st' chunk e :
  encoding st = Some e →
  make_chunk options any st = Ok (st', chunk) → encoding st' = Some e.
Proof.
  intros He. destruct any as [| | | s | b | json]; simpl;
    unfold resolve_encoding; rewrite ?He; simpl;
    try (by intros [= <- _]).
  destruct json; [|done].
  destruct (setJSONMediaType_locals st) as (_&_&_&Hj&_).
  destruct (_ && _); intros [= <- _]; congruence.
Qed.

Lemma step_encoding ev st st' e :
  encoding st = Some e → step options ev st = Ok st' → encoding st' = Some e.
Proof.
  intros He. destruct ev as [|any| |f]; simpl.
  - by intros [= <-].
  - unfold on_data.
    destruct (make_chunk options any st) as [[st1 chunk]|] eqn:E; [|done].
    apply make_chunk_encoding with (e := e) in E; [|done]. simpl.
    destruct (endCalled st1); by intros [= <-].
  - intros [= <-]. unfold on_end. by destruct (flush _ _).
  - by intros [= <-].
Qed.

(** The encoding is resolved once.  After it is, whatever happens in a run
    that does not raise, other code rewriting the content-type included,
    the encoding stays, and a string chunk is encoded with it without a
    look at the headers and without a change to the closure. *)
Theorem encoding_cached evs : ∀ st st' e,
  encoding st = Some e →
  run options evs st = Ok st' →
  encoding st' = Some e
  ∧ ∀ s, make_chunk options (VString s) st'
         = Ok (st', VBuffer (BufferFrom s e)).
Proof.
  induction evs as [|ev rest IH]; intros st st' e He; simpl.
  - intros [= <-]. split; [done|]. intros s.
    unfold resolve_encoding. by rewrite He.
  - destruct (step options ev st) as [st1|] eqn:E; [|done]. simpl.
    apply step_encoding with (e := e) in E; [|done]. by apply IH.
Qed.

End EncoderInvariants.

Lemma early_chunks_written_in_order_witness :
  ∃ st',
    run default_options [Data (VString "a"); Data (VBuffer (Bytes []))]
      (state_with_content_type "text/plain") = Ok st'
    ∧ ∃ bs, Forall2 chunk_of [VString "a"; VBuffer (Bytes [])] bs
        ∧ destination st' = ([] ++ (CallWrite ∘ VBuffer <$> bs))%list
        ∧ pendingChunks st' = []
        ∧ endCalled st' = false.
Proof.
  eexists. split; [reflexivity|].
  exact (early_chunks_written_in_order default_options
           [VString "a"; VBuffer (Bytes [])]
           (state_with_content_type "text/plain") _
           eq_refl eq_refl eq_refl).
Defined.

Lemma late_encodable_chunks_flushed_witness :
  ∃ st',
    run default_options
      ((Data <$> [VString "b"; VObject (Some "{}")]) ++ [End])
      (set_endCalled true (state_with_content_type "text/plain")) = Ok st'
    ∧ ∃ bs, Forall2 chunk_of [VString "b"; VObject (Some "{}")] bs
        ∧ destination st'
          = ([] ++ (CallWrite ∘ VBuffer <$> bs) ++ [CallEnd None])%list
        ∧ pendingChunks st' = [].
Proof.
  eexists. split; [reflexivity|].
  exact (late_encodable_chunks_flushed default_options
           [VString "b"; VObject (Some "{}")]
           (set_endCalled true (state_with_content_type "text/plain")) _
           eq_refl eq_refl eq_refl eq_refl).
Defined.

Lemma destination_ended_once_per_end_witness :
  ∃ st',
    run default_options
      [Data (VString "a"); EndRequested; Data (VString "b"); End]
      (state_with_content_type "text/plain") = Ok st'
    ∧ count_ends (destination st') = 1%nat.
Proof.
  eexists. split; [reflexivity|].
  exact (destination_ended_once_per_end default_options
           [Data (VString "a"); EndRequested; Data (VString "b"); End]
           (state_with_content_type "text/plain") _ eq_refl).
Defined.

Lemma sent_headers_untouched_witness :
  let st := BufferEncoder.set_res
              {| Response.status := Some 200; Response.headers := ∅;
                 Response.headersSent := true; Response.stream := [] |}
              (state_with_content_type "text/plain") in
  let options := {| defaultCharset := None; setCharset := true;
                    setJSON := true |} in
  ∃ st',
    run options [Data (VObject (Some "{}")); EndRequested; End] st = Ok st'
    ∧ res st' = res st.
Proof.
  intros st options. eexists. split; [reflexivity|].
  exact (sent_headers_untouched options
           [Data (VObject (Some "{}")); EndRequested; End] st _
           eq_refl eq_refl eq_refl).
Defined.

Lemma encoding_cached_witness :
  let st := BufferEncoder.set_encoding (Some latin1)
              (state_with_content_type "text/plain;charset=latin1") in
  ∃ st',
    run default_options
      [Other (Response.set_header "content-type" (Some "text/plain;charset=hex"));
       Data (VString "a")] st = Ok st'
    ∧ encoding st' = Some latin1
    ∧ ∀ s, make_chunk default_options (VString s) st'
           = Ok (st', VBuffer (BufferFrom s latin1)).
Proof.
  intros st. eexists. split; [reflexivity|].
  exact (encoding_cached default_options
           [Other (Response.set_header "content-type"
                     (Some "text/plain;charset=hex"));
            Data (VString "a")] st _ latin1 eq_refl eq_refl).
Defined.

(** ** The buffer encoder: what [parseCharset] resolves *)

Section CharsetResolution.
Import JS Response.
Variable options : BufferEncoderMiddlewareOptions.

Lemma truthy_template v : truthy v = true → v = Some (template v).
Proof. by destruct v as [[|]|]. Qed.

Lemma fallback_charset_truthy : truthy (Some (fallback_charset options)) = true.
Proof.
  unfold fallback_charset.
  destruct (defaultCharset options) as [[|c s]|]; done.
Qed.

Lemma charset_callback_found st directive st' found :
  charset_callback st directive = Ok (st', found) →
  found = String.eqb (directive_key directive) "charset".
Proof.
  unfold charset_callback, directive_key.
  destruct (split_nonempty "=" directive) as (p0 & t & ->). cbn.
  destruct (String.eqb (toLowerCase (trim p0)) "charset"); cbn.
  - destruct (_ <$> _); [|done]. by destruct (_ && _); intros [= _ <-].
  - by intros [= _ <-].
Qed.

Lemma charset_callback_skip st directive :
  String.eqb (directive_key directive) "charset" = false →
  charset_callback st directive = Ok (st, false).
Proof.
  unfold charset_callback, directive_key.
  destruct (split_nonempty "=" directive) as (p0 & t & ->). cbn.
  by intros ->.
Qed.

(** The loop over the directives comes down to the callback on the first
    directive whose key is [charset]. *)
Lemma charset_some_find directives : ∀ st,
  charset_some st directives
  = match find (fun d => String.eqb (directive_key d) "charset") directives
    with
    | Some d => let! (st', _) := charset_callback st d in Ok st'
    | None => Ok st
    end.
Proof.
  induction directives as [|d rest IH]; intros st; cbn; [done|].
  destruct (String.eqb (directive_key d) "charset") eqn:Ek.
  - destruct (charset_callback st d) as [[st' found]|] eqn:E; [|done].
    apply charset_callback_found in E. rewrite Ek in E. by subst.
  - rewrite charset_callback_skip by done. cbn. apply IH.
Qed.

(** What [parseCharset] returns is never empty, it is cached in the
    closure, and a second call, whatever the options then, returns it
    again and changes nothing. *)
Theorem parseCharset_caches st st' cs :
  parseCharset options st = Ok (st', cs) →
  truthy (Some cs) = true
  ∧ charset st' = Some cs
  ∧ ∀ options', parseCharset options' st' = Ok (st', cs).
Proof.
  intros Hp.
  assert (truthy (Some cs) = true ∧ charset st' = Some cs) as [Hcs Hc].
  { revert Hp. unfold parseCharset.
    destruct (truthy (charset st)) eqn:Ht.
    { intros [= <- <-]. apply truthy_template in Ht as Ht'.
      rewrite <- Ht'. done. }
    match goal with
    | |- context [rbind ?r _] => destruct r as [st1|]; [|done]
    end.
    cbn [rbind]. destruct (truthy (charset st1)) eqn:Ht1; cbn [negb].
    - intros [= <- <-]. apply truthy_template in Ht1 as Ht'.
      rewrite <- Ht'. done.
    - fold (fallback_charset options).
      destruct (setCharset options && _); intros [= <- <-];
        (split; [apply fallback_charset_truthy|done]). }
  split; [done|]. split; [done|].
  intros options'. unfold parseCharset. by rewrite Hc, Hcs.
Qed.


Lemma indexOf_none c s : includes c s = false → indexOf c s = -1.
Proof.
  induction s as [|d s IH]; [done|]. cbn.
  intros [-> Hs]%orb_false_elim. by rewrite (IH Hs).
Qed.

Lemma lastIndexOf_none c s : includes c s = false → lastIndexOf c s = -1.
Proof.
  induction s as [|d s IH]; [done|]. cbn.
  intros [-> Hs]%orb_false_elim. by rewrite (IH Hs).
Qed.

Lemma len_cons d s : len (String d s) = len s + 1.
Proof. unfold len. cbn [String.length]. lia. Qed.

Lemma len_nonneg s : 0 ≤ len s.
Proof. unfold len. lia. Qed.

Lemma length_append a b :
  String.length (a +:+ b) = (String.length a + String.length b)%nat.
Proof.
  induction a as [|d a IH]; [done|]. rewrite append_cons. cbn. by rewrite IH.
Qed.

Lemma lastIndexOf_app_last c x :
  includes c x = false → lastIndexOf c (x +:+ String c EmptyString) = len x.
Proof.
  induction x as [|d x IH].
  - intros _. change (lastIndexOf c (String c EmptyString) = 0).
    cbn [lastIndexOf]. change (-1 =? -1) with true. cbv iota.
    by rewrite Ascii.eqb_refl.
  - cbn [includes]. intros [Hd Hx]%orb_false_elim.
    rewrite append_cons. cbn [lastIndexOf]. rewrite (IH Hx), len_cons.
    pose proof (len_nonneg x).
    destruct (Z.eqb_spec (len x) (-1)); [lia|done].
Qed.

Lemma substring_prefix x y :
  String.substring 0 (String.length x) (x +:+ y) = x.
Proof.
  induction x as [|d x IH]; [by destruct y|].
  rewrite append_cons. cbn. by rewrite IH.
Qed.

(** The text between a leading and a trailing quote. *)
Lemma substring_between_quotes x :
  includes dquote x = false →
  let v := String dquote (x +:+ String dquote EmptyString) in
  indexOf dquote v = 0
  ∧ lastIndexOf dquote v = len x + 1
  ∧ substring (0 + 1) (len x + 1) v = x.
Proof.
  intros Hx v. subst v. split; [|split].
  - cbn [indexOf]. by rewrite Ascii.eqb_refl.
  - cbn [lastIndexOf]. rewrite lastIndexOf_app_last by done.
    pose proof (len_nonneg x).
    destruct (Z.eqb_spec (len x) (-1)); [lia|done].
  - unfold substring. rewrite len_cons. unfold len.
    rewrite length_append. cbn [String.length].
    replace (Z.max 0 (Z.min (0 + 1) _)) with 1 by lia.
    replace (Z.max 0 (Z.min (Z.of_nat (String.length x) + 1) _))
      with (Z.of_nat (String.length x) + 1) by lia.
    replace (Z.min 1 _) with 1 by lia.
    replace (Z.max 1 _) with (Z.of_nat (String.length x) + 1) by lia.
    replace (Z.to_nat (Z.of_nat (String.length x) + 1 - 1))
      with (String.length x) by lia.
    change (Z.to_nat 1) with 1%nat. cbn [String.substring].
    apply substring_prefix.
Qed.

Lemma charset_directive_truthy ct d :
  charset_directive ct = Some d → truthy (Some ct) = true.
Proof. by destruct ct. Qed.

(** The callback on a directive with a value. *)
Lemma charset_callback_value st d p1 :
  String.eqb (directive_key d) "charset" = true →
  split "=" d !! 1%nat = Some p1 →
  let v := toLowerCase (trim p1) in
  charset_callback st d
  = Ok (set_charset
          (Some (if negb (indexOf dquote v =? -1)
                    && negb (lastIndexOf dquote v =? -1)
                 then substring (indexOf dquote v + 1)
                        (lastIndexOf dquote v) v
                 else v)) st, true).
Proof.
  intros Hk Hp v. unfold charset_callback. revert Hk. unfold directive_key.
  destruct (split_nonempty "=" d) as (p0 & t & E). rewrite E in *.
  cbn. intros ->. cbn. cbn in Hp. rewrite Hp. cbn. fold v.
  by destruct (_ && _).
Qed.

Lemma parseCharset_header st ct d p1 :
  truthy (charset st) = false →
  get_header "content-type" (res st) = Some ct →
  charset_directive ct = Some d →
  split "=" d !! 1%nat = Some p1 →
  let v := toLowerCase (trim p1) in
  let cs := if negb (indexOf dquote v =? -1)
               && negb (lastIndexOf dquote v =? -1)
            then substring (indexOf dquote v + 1) (lastIndexOf dquote v) v
            else v in
  truthy (Some cs) = true →
  parseCharset options st = Ok (set_charset (Some cs) st, cs).
Proof.
  intros Hc Hct Hd Hp v cs Hcs. unfold parseCharset.
  rewrite Hc, Hct, (charset_directive_truthy ct d Hd). cbn [template].
  rewrite charset_some_find. fold (charset_directive ct). rewrite Hd.
  assert (String.eqb (directive_key d) "charset" = true) as Hk.
  { unfold charset_directive in Hd. by apply find_some in Hd as [_ ?]. }
  rewrite (charset_callback_value st d p1 Hk Hp). fold v. fold cs.
  cbn [rbind]. cbn [charset set_charset]. by rewrite Hcs.
Qed.

(** A charset parameter without quotes.  When nothing is cached and the
    first directive of the content-type whose key is [charset], in any
    case and with white space around it, has the value [p1], [parseCharset]
    returns that value trimmed and in lower case, caches it and leaves the
    response alone; a string chunk is then encoded with the encoding of
    that name. *)
Theorem charset_from_header st ct d p1 :
  truthy (charset st) = false →
  encoding st = None →
  get_header "content-type" (res st) = Some ct →
  charset_directive ct = Some d →
  split "=" d !! 1%nat = Some p1 →
  let v := toLowerCase (trim p1) in
  includes dquote v = false →
  truthy (Some v) = true →
  parseCharset options st = Ok (set_charset (Some v) st, v)
  ∧ ∀ s, make_chunk options (VString s) st
         = Ok (set_encoding (Some (charsetAsBufferEncoding v))
                 (set_charset (Some v) st),
               VBuffer (BufferFrom s (charsetAsBufferEncoding v))).
Proof.
  intros Hc He Hct Hd Hp v Hq Hv.
  assert (parseCharset options st = Ok (set_charset (Some v) st, v)) as Hpc.
  { pose proof (parseCharset_header st ct d p1 Hc Hct Hd Hp) as Hh.
    cbn zeta in Hh. fold v in Hh.
    rewrite (indexOf_none _ _ Hq) in Hh. cbn in Hh. by apply Hh. }
  split; [done|]. intros s. cbn. unfold resolve_encoding.
  by rewrite He, Hpc.
Qed.

(** A charset parameter in quotes: the quotes are taken off. *)
Theorem charset_from_quoted_header st ct d p1 x :
  truthy (charset st) = false →
  get_header "content-type" (res st) = Some ct →
  charset_directive ct = Some d →
  split "=" d !! 1%nat = Some p1 →
  toLowerCase (trim p1) = String dquote (x +:+ String dquote EmptyString) →
  includes dquote x = false →
  truthy (Some x) = true →
  parseCharset options st = Ok (set_charset (Some x) st, x).
Proof.
  intros Hc Hct Hd Hp Hv Hq Hx.
  pose proof (parseCharset_header st ct d p1 Hc Hct Hd Hp) as Hh.
  cbn zeta in Hh. rewrite Hv in Hh.
  destruct (substring_between_quotes x Hq) as (Hi & Hl & Hs).
  rewrite Hi, Hl, Hs in Hh.
  pose proof (len_nonneg x).
  replace (negb (0 =? -1) && negb (len x + 1 =? -1)) with true in Hh.
  - by apply Hh.
  - destruct (Z.eqb_spec (len x + 1) (-1)); [lia|done].
Qed.

Lemma parseCharset_without_directive st :
  truthy (charset st) = false →
  (∀ ct, get_header "content-type" (res st) = Some ct →
         charset_directive ct = None) →
  let cs := fallback_charset options in
  let old := get_header "content-type" (res st) in
  parseCharset options st
  = Ok (if setCharset options && negb (headersSent (res st))
        then set_res
               (set_header "content-type"
                  (Some ((if truthy old then template old else EmptyString)
                         +:+ ";charset=" +:+ cs)) (res st))
               (set_charset (Some cs) st)
        else set_charset (Some cs) st, cs).
Proof.
  intros Hc Hnone cs old. unfold parseCharset. rewrite Hc. fold old.
  assert ((if truthy old then charset_some st (split ";" (template old))
           else Ok st) = Ok st) as ->.
  { destruct old as [ct|] eqn:Eo; [|done].
    destruct (truthy (Some ct)); [|done]. cbn [template].
    rewrite charset_some_find. fold (charset_directive ct).
    by rewrite (Hnone ct Eo). }
  cbn [rbind]. rewrite Hc. cbn [negb]. fold cs.
  by destruct (setCharset options && _).
Qed.

(** No charset in the header.  When nothing is cached and the content-type
    is absent or has no directive with the key [charset], [parseCharset]
    returns the fallback charset (the configured default, or [utf-8]) and
    caches it; with [setCharset] and unsent headers the content-type
    becomes the old value followed by [;charset=] and that charset, and
    otherwise the response stays as it is. *)
Theorem charset_fallback st :
  truthy (charset st) = false →
  (∀ ct, get_header "content-type" (res st) = Some ct →
         charset_directive ct = None) →
  let cs := fallback_charset options in
  let old := get_header "content-type" (res st) in
  parseCharset options st
  = Ok (if setCharset options && negb (headersSent (res st))
        then set_res
               (set_header "content-type"
                  (Some ((if truthy old then template old else EmptyString)
                         +:+ ";charset=" +:+ cs)) (res st))
               (set_charset (Some cs) st)
        else set_charset (Some cs) st, cs).
Proof. apply parseCharset_without_directive. Qed.

End CharsetResolution.

Section JSONWithCharset.
Import JS Response.
Variable options : BufferEncoderMiddlewareOptions.


End JSONWithCharset.


Lemma charset_from_header_witness :
  let ct := "text/plain; Charset= ISO-8859-1 " in
  let st := state_with_content_type ct in
  parseCharset default_options st
  = Ok (BufferEncoder.set_charset (Some "iso-8859-1") st, "iso-8859-1")
  ∧ ∀ s, make_chunk default_options (VString s) st
         = Ok (BufferEncoder.set_encoding (Some latin1)
                 (BufferEncoder.set_charset (Some "iso-8859-1") st),
               VBuffer (BufferFrom s latin1)).
Proof.
  intros ct st.
  exact (charset_from_header default_options st ct
           " Charset= ISO-8859-1 " " ISO-8859-1 "
           eq_refl eq_refl eq_refl eq_refl eq_refl eq_refl eq_refl).
Defined.

Lemma charset_from_quoted_header_witness :
  let quoted := String dquote ("UTF-16LE" +:+ String dquote EmptyString) in
  let st := state_with_content_type ("text/plain;charset=" +:+ quoted) in
  parseCharset default_options st
  = Ok (BufferEncoder.set_charset (Some "utf-16le") st, "utf-16le").
Proof.
  intros quoted st.
  exact (charset_from_quoted_header default_options st
           ("text/plain;charset=" +:+ quoted) ("charset=" +:+ quoted) quoted
           "utf-16le" eq_refl eq_refl eq_refl eq_refl eq_refl eq_refl eq_refl).
Defined.

Lemma charset_fallback_witness :
  let options := {| defaultCharset := None; setCharset := true;
                    setJSON := false |} in
  let st := state_with_content_type "text/html" in
  parseCharset options st
  = Ok (BufferEncoder.set_res
          (Response.set_header "content-type"
             (Some "text/html;charset=utf-8") (res st))
          (BufferEncoder.set_charset (Some "utf-8") st), "utf-8").
Proof.
  intros options st.
  exact (charset_fallback options st eq_refl
           ltac:(by intros ct [= <-])).
Defined.

Lemma parseCharset_caches_witness :
  let st := state_with_content_type "text/plain;charset=hex" in
  ∃ st', parseCharset default_options st = Ok (st', "hex")
    ∧ JS.truthy (Some "hex") = true
    ∧ charset st' = Some "hex"
    ∧ ∀ options', parseCharset options' st' = Ok (st', "hex").
Proof.
  intros st. eexists. split; [reflexivity|].
  exact (parseCharset_caches default_options st _ "hex" eq_refl).
Defined.


Section LateChunksHeld.
Import JS Response.
Variable options : BufferEncoderMiddlewareOptions.

(** After the end is requested and until ['end'], no chunk of any kind
    reaches the destination: each ['data'] event of a run that does not
    raise adds one entry to the queue and calls nothing on the
    destination. *)
Theorem late_chunks_held_back anys : ∀ st st',
  endCalled st = true →
  run options (Data <$> anys) st = Ok st' →
  destination st' = destination st
  ∧ length (pendingChunks st')
    = (length (pendingChunks st) + length anys)%nat
  ∧ endCalled st' = true.
Proof.
  induction anys as [|any rest IH]; intros st st' Hend; simpl.
  - intros [= <-]. split; [done|]. split; [lia|done].
  - unfold on_data.
    destruct (make_chunk options any st) as [[st1 chunk]|] eqn:E; [|done].
    apply make_chunk_locals in E as (Hd & He & Hp & _).
    simpl. rewrite He, Hend. simpl. intros Hrun.
    apply IH in Hrun as (Hd' & Hp' & He'); [|simpl; congruence].
    simpl in Hd', Hp'. rewrite length_app in Hp'. simpl in Hp'.
    split; [congruence|]. split; [|done]. rewrite Hp', Hp. lia.
Qed.

End LateChunksHeld.

Lemma late_chunks_held_back_witness :
  let st := BufferEncoder.set_endCalled true
              (state_with_content_type "text/plain") in
  ∃ st',
    run default_options
      (Data <$> [VString "a"; VNumber (JS.Num 1); VBuffer (Bytes [])]) st
    = Ok st'
    ∧ destination st' = []
    ∧ length (pendingChunks st') = 3%nat
    ∧ endCalled st' = true.
Proof.
  intros st. eexists. split; [reflexivity|].
  exact (late_chunks_held_back default_options
           [VString "a"; VNumber (JS.Num 1); VBuffer (Bytes [])] st _
           eq_refl eq_refl).
Defined.

Lemma middleware_installs_witness :
  let req := {| Request.method := "HEAD"; Request.headers := ∅ |} in
  executeBufferEncoderMiddleware req fresh_response
  = (fresh_response, None, MwContinue).
Proof.
  intros req.
  pose proof (middleware_installs req fresh_response) as Hm.
  destruct (executeBufferEncoderMiddleware req fresh_response)
    as [[res1 closure] signal].
  destruct Hm as (-> & Hhead & _).
  destruct (Hhead eq_refl) as [-> ->]. reflexivity.
Defined.
